(** * Quadtree bitmap processor: a shallow embedding of quadtree.cpp

    The development follows the C++ class [Quadtree] of quadtree.cpp /
    quadtree.h.  A [QuadtreeNode*] is a value of the inductive type
    [QuadtreeNode] ([NULL] is the null pointer); the ownership graph of the
    class is a tree, so pointers are modelled by the subtrees they own.
    Member functions that update the object return the updated object.

    C++ [int] values are modelled by [Z]; [/] on [int] is truncating
    division [Z.quot].  Signed overflow is undefined in C++ and is not
    modelled: on inputs within the preconditions the only [int] that can
    leave the 32-bit range is the leaf count of [pruneSize], on a tree
    with 2^31 or more leaves (an image of side 2^16 or more).  The
    [uint8_t] colour channels are [Byte.byte].

    Overloaded members: the public member keeps the source's name
    ([getPixel], [prune], ...), its private recursive helper on a node
    pointer carries the suffix [_node]. *)

From Stdlib Require Import ZArith Lia Bool List.
From Stdlib Require Import Strings.Byte.
Import ListNotations.
Local Open Scope Z_scope.

(** ** Results of running a member function *)

(** What a call can end in: a value, or one of the three ways the C++
    program leaves defined behaviour / the model gives up. *)
Inductive result (A : Type) : Type :=
| Ok (a : A)
| NullDeref        (* a NULL [QuadtreeNode*] was dereferenced *)
| BadPixelAccess   (* a PNG was indexed outside [0,width) x [0,height) *)
| OutOfFuel.       (* the recursion did not finish within the given budget *)

Arguments Ok {A} a.
Arguments NullDeref {A}.
Arguments BadPixelAccess {A}.
Arguments OutOfFuel {A}.

Definition bind {A B : Type} (m : result A) (k : A -> result B) : result B :=
  match m with
  | Ok a => k a
  | NullDeref => NullDeref
  | BadPixelAccess => BadPixelAccess
  | OutOfFuel => OutOfFuel
  end.

Notation "x <- m ;; k" := (bind m (fun x => k))
  (at level 61, m at next level, right associativity).

(** ** Colours *)

Definition uint8_t : Type := byte.

(** Integer promotion of a [uint8_t] to [int]. *)
Definition to_int (b : uint8_t) : Z := Z.of_N (Byte.to_N b).

(** Conversion of an [int] to [uint8_t] (reduction modulo 256). *)
Definition to_uint8 (z : Z) : uint8_t :=
  match Byte.of_N (Z.to_N (z mod 256)) with
  | Some b => b
  | None => x00
  end.

Record RGBAPixel : Type := mkRGBAPixel
  { red : uint8_t; green : uint8_t; blue : uint8_t; alpha : uint8_t }.

(** ** The bitmap container *)

(** Modelled from the spec: png.h is not part of the sources.  The bitmap
    container exposes [width], [height] and coordinate-indexed read/write
    access to its pixels; an access outside the image is not defined by the
    spec and is reported as [BadPixelAccess]. *)
Record PNG : Type := mkPNG
  { width : Z; height : Z; pixels : Z -> Z -> RGBAPixel }.

Definition inImage (img : PNG) (x y : Z) : bool :=
  (0 <=? x) && (x <? width img) && (0 <=? y) && (y <? height img).

(** Reading [*source(x, y)]. *)
Definition pixelAt (img : PNG) (x y : Z) : result RGBAPixel :=
  if inImage img x y then Ok (pixels img x y) else BadPixelAccess.

(** Writing [*source(x, y) = c]. *)
Definition setPixelAt (img : PNG) (x y : Z) (c : RGBAPixel) : result PNG :=
  if inImage img x y then
    Ok (mkPNG (width img) (height img)
          (fun x' y' => if (x' =? x) && (y' =? y) then c else pixels img x' y'))
  else BadPixelAccess.

(** ** Nodes and trees *)

(** [Node nwChild neChild swChild seChild element]; the four child
    pointers may be [NULL] independently of one another. *)
Inductive QuadtreeNode : Type :=
| NULL : QuadtreeNode
| Node (nwChild neChild swChild seChild : QuadtreeNode) (element : RGBAPixel).

Record Quadtree : Type := mkQuadtree { root : QuadtreeNode; res : Z }.

Definition isNULL (p : QuadtreeNode) : bool :=
  match p with NULL => true | Node _ _ _ _ _ => false end.

Definition MIN_TOLERANCE : Z := 0.
Definition MAX_TOLERANCE : Z := 3 * (255 * 255).

(** [Quadtree::Quadtree()] *)
Definition Quadtree_empty : Quadtree := mkQuadtree NULL 0.

(** [QuadtreeNode::QuadtreeNode(RGBAPixel const& elem)] *)
Definition QuadtreeNode_new (elem : RGBAPixel) : QuadtreeNode :=
  Node NULL NULL NULL NULL elem.

(** [deleteQuadtree(QuadtreeNode*& node)]: frees the subtree and leaves
    [NULL] in the pointer it was given. *)
Fixpoint deleteQuadtree_node (node : QuadtreeNode) : QuadtreeNode :=
  match node with
  | NULL => NULL
  | Node nwChild neChild swChild seChild _ =>
      let _ := deleteQuadtree_node nwChild in
      let _ := deleteQuadtree_node neChild in
      let _ := deleteQuadtree_node swChild in
      let _ := deleteQuadtree_node seChild in
      NULL
  end.

(** [deleteQuadtree()] *)
Definition deleteQuadtree (this : Quadtree) : Quadtree :=
  if isNULL (root this) then this
  else mkQuadtree (deleteQuadtree_node (root this)) (res this).

(** [copyQuadtree(QuadtreeNode*& myNode, QuadtreeNode* const& otherNode)]:
    [myNode] is left as it was when [otherNode] is [NULL]. *)
Fixpoint copyQuadtree_node (myNode otherNode : QuadtreeNode) : QuadtreeNode :=
  match otherNode with
  | NULL => myNode
  | Node nwChild neChild swChild seChild element =>
      Node (copyQuadtree_node NULL nwChild) (copyQuadtree_node NULL neChild)
           (copyQuadtree_node NULL swChild) (copyQuadtree_node NULL seChild)
           element
  end.

(** [copyQuadtree(Quadtree const& other)], [other] a different object. *)
Definition copyQuadtree (this other : Quadtree) : Quadtree :=
  let this1 := deleteQuadtree this in
  mkQuadtree (copyQuadtree_node (root this1) (root other)) (res other).

(** [copyQuadtree] called on the object itself (self-assignment): [other]
    is [this], so [other.root] is read after [deleteQuadtree()] has reset
    it. *)
Definition copyQuadtree_self (this : Quadtree) : Quadtree :=
  let this1 := deleteQuadtree this in
  mkQuadtree (copyQuadtree_node (root this1) (root this1)) (res this1).

(** [getAvg] *)
Definition getAvg (n1 n2 n3 n4 : uint8_t) : uint8_t :=
  to_uint8 ((to_int n1 + to_int n2 + to_int n3 + to_int n4) ÷ 4).

(** Reading [node->element]. *)
Definition elementOf (node : QuadtreeNode) : result RGBAPixel :=
  match node with
  | NULL => NullDeref
  | Node _ _ _ _ element => Ok element
  end.

(** [getAvgPixelOfChildren]: the element written into a node whose four
    children are [nwChild], [neChild], [swChild], [seChild]. *)
Definition getAvgPixelOfChildren (nwChild neChild swChild seChild : QuadtreeNode)
  : result RGBAPixel :=
  nwElem <- elementOf nwChild ;;
  neElem <- elementOf neChild ;;
  swElem <- elementOf swChild ;;
  seElem <- elementOf seChild ;;
  Ok (mkRGBAPixel
        (getAvg (red nwElem) (red neElem) (red swElem) (red seElem))
        (getAvg (green nwElem) (green neElem) (green swElem) (green seElem))
        (getAvg (blue nwElem) (blue neElem) (blue swElem) (blue seElem))
        (getAvg (alpha nwElem) (alpha neElem) (alpha swElem) (alpha seElem))).

(** [buildTree(source, resolution, x, y, node)]; the recursion of the source
    is on [resolution], halved until it equals 1, and is given a budget. *)
Fixpoint buildTree_node (fuel : nat) (source : PNG) (resolution x y : Z)
  : result QuadtreeNode :=
  match fuel with
  | O => OutOfFuel
  | S fuel' =>
      if resolution =? 1 then
        pixel <- pixelAt source x y ;;
        Ok (QuadtreeNode_new pixel)
      else
        let childResolution := resolution ÷ 2 in
        nwChild <- buildTree_node fuel' source childResolution x y ;;
        neChild <- buildTree_node fuel' source childResolution
                     (x + childResolution) y ;;
        swChild <- buildTree_node fuel' source childResolution
                     x (y + childResolution) ;;
        seChild <- buildTree_node fuel' source childResolution
                     (x + childResolution) (y + childResolution) ;;
        element <- getAvgPixelOfChildren nwChild neChild swChild seChild ;;
        Ok (Node nwChild neChild swChild seChild element)
  end.

(** [buildTree(PNG const& source, int resolution)] *)
Definition buildTree (fuel : nat) (this : Quadtree) (source : PNG)
  (resolution : Z) : result Quadtree :=
  let this1 := deleteQuadtree this in
  node <- buildTree_node fuel source resolution 0 0 ;;
  Ok (mkQuadtree node resolution).

(** [hasChildren].  In the recursive helpers below the match on [node]
    that gives access to the children already covers the [NULL] case, and
    the test reads [isNULL nwChild]. *)
Definition hasChildren (node : QuadtreeNode) : result bool :=
  match node with
  | NULL => NullDeref
  | Node nwChild _ _ _ _ => Ok (negb (isNULL nwChild))
  end.

(** [outOfBound] *)
Definition outOfBound (this : Quadtree) (x y : Z) : bool :=
  (x <? 0) || (y <? 0) || (res this <=? x) || (res this <=? y).

(** [getPixel(x, y, node, resolution)] *)
Fixpoint getPixel_node (x y : Z) (node : QuadtreeNode) (resolution : Z)
  : result RGBAPixel :=
  match node with
  | NULL => NullDeref
  | Node nwChild neChild swChild seChild element =>
      if isNULL nwChild then Ok element
      else
        let r := resolution ÷ 2 in
        if (x <? r) && (y <? r) then getPixel_node x y nwChild r
        else if (x <? r) && (r <=? y) then getPixel_node x y swChild r
        else if (r <=? x) && (y <? r) then getPixel_node x y neChild r
        else getPixel_node x y seChild r
  end.

(** The loop [for (int i = 0; i < n; i++) body(i)], [n] iterations from
    index [i]. *)
Fixpoint for_loop {S : Type} (n : nat) (i : Z) (body : Z -> S -> result S)
  (s : S) : result S :=
  match n with
  | O => Ok s
  | Datatypes.S n' => s' <- body i s ;; for_loop n' (i + 1) body s'
  end.

(** [transform(source, resolution, x, y, node)] *)
Fixpoint transform (source : PNG) (resolution x y : Z) (node : QuadtreeNode)
  : result PNG :=
  match node with
  | NULL => NullDeref
  | Node nwChild neChild swChild seChild element =>
      if isNULL nwChild then
        let newPixel := element in
        for_loop (Z.to_nat resolution) 0
          (fun i img =>
             for_loop (Z.to_nat resolution) 0
               (fun j img' => setPixelAt img' (x + i) (y + j) newPixel) img)
          source
      else
        let childResolution := resolution ÷ 2 in
        s1 <- transform source childResolution x y nwChild ;;
        s2 <- transform s1 childResolution (x + childResolution) y neChild ;;
        s3 <- transform s2 childResolution x (y + childResolution) swChild ;;
        transform s3 childResolution (x + childResolution)
          (y + childResolution) seChild
  end.

(** [clockwiseRotate(QuadtreeNode*& node)]: the four pointers are rewired
    first, then the children are visited in the order nw, sw, se, ne of the
    rewired node. *)
Fixpoint clockwiseRotate_node (node : QuadtreeNode) : result QuadtreeNode :=
  match node with
  | NULL => NullDeref
  | Node nwChild neChild swChild seChild element =>
      if isNULL nwChild then Ok node
      else
        nw' <- clockwiseRotate_node swChild ;;
        sw' <- clockwiseRotate_node seChild ;;
        se' <- clockwiseRotate_node neChild ;;
        ne' <- clockwiseRotate_node nwChild ;;
        Ok (Node nw' ne' sw' se' element)
  end.

(** [square] *)
Definition square (n : Z) : Z := n * n.

(** [isPrunable] *)
Definition isPrunable (tolerance : Z) (avgPixel nodePixel : RGBAPixel) : bool :=
  let diff :=
    square (to_int (red avgPixel) - to_int (red nodePixel)) +
    square (to_int (green avgPixel) - to_int (green nodePixel)) +
    square (to_int (blue avgPixel) - to_int (blue nodePixel)) in
  diff <=? tolerance.

(** [isChildrenPrunable(tolerance, rootNode, node)]: all four recursive
    calls are made before the conjunction is taken. *)
Fixpoint isChildrenPrunable (tolerance : Z) (rootNode node : QuadtreeNode)
  : result bool :=
  match node with
  | NULL => NullDeref
  | Node nwChild neChild swChild seChild element =>
      if isNULL nwChild then
        avgPixel <- elementOf rootNode ;;
        Ok (isPrunable tolerance avgPixel element)
      else
        p1 <- isChildrenPrunable tolerance rootNode nwChild ;;
        p2 <- isChildrenPrunable tolerance rootNode neChild ;;
        p3 <- isChildrenPrunable tolerance rootNode swChild ;;
        p4 <- isChildrenPrunable tolerance rootNode seChild ;;
        Ok (p1 && p2 && p3 && p4)
  end.

(** [pruneChildren] *)
Definition pruneChildren (node : QuadtreeNode) : result QuadtreeNode :=
  match node with
  | NULL => NullDeref
  | Node nwChild neChild swChild seChild element =>
      Ok (Node (deleteQuadtree_node nwChild) (deleteQuadtree_node neChild)
               (deleteQuadtree_node swChild) (deleteQuadtree_node seChild)
               element)
  end.

(** [prune(int tolerance, QuadtreeNode*& node)] *)
Fixpoint prune_node (tolerance : Z) (node : QuadtreeNode) : result QuadtreeNode :=
  match node with
  | NULL => NullDeref
  | Node nwChild neChild swChild seChild element =>
      if isNULL nwChild then Ok node
      else
        prunable <- isChildrenPrunable tolerance node node ;;
        if prunable : bool then pruneChildren node
        else
          nw' <- prune_node tolerance nwChild ;;
          ne' <- prune_node tolerance neChild ;;
          sw' <- prune_node tolerance swChild ;;
          se' <- prune_node tolerance seChild ;;
          Ok (Node nw' ne' sw' se' element)
  end.

(** [pruneSize(int tolerance, QuadtreeNode* node)] *)
Fixpoint pruneSize_node (tolerance : Z) (node : QuadtreeNode) : result Z :=
  match node with
  | NULL => NullDeref
  | Node nwChild neChild swChild seChild element =>
      if isNULL nwChild then Ok 1
      else
        prunable <- isChildrenPrunable tolerance node node ;;
        if prunable : bool then Ok 1
        else
          n1 <- pruneSize_node tolerance nwChild ;;
          n2 <- pruneSize_node tolerance neChild ;;
          n3 <- pruneSize_node tolerance swChild ;;
          n4 <- pruneSize_node tolerance seChild ;;
          Ok (n1 + n2 + n3 + n4)
  end.

(** ** The public members *)

Section PublicMembers.

(** The pixel made by the default constructor [RGBAPixel()]; the class
    is declared in png.h, which is not part of the sources. *)
Variable RGBAPixel_default : RGBAPixel.

(** Modelled from the spec: [PNG()] of the missing png.h, the defined
    empty, zero-sized grid. *)
Definition PNG_default : PNG := mkPNG 0 0 (fun _ _ => RGBAPixel_default).

(** Modelled from the spec: [PNG(width, height)] of the missing png.h, a
    grid of that shape (its pixels are overwritten by [transform]). *)
Definition PNG_new (w h : Z) : PNG := mkPNG w h (fun _ _ => RGBAPixel_default).

(** [getPixel(int x, int y)] *)
Definition getPixel (this : Quadtree) (x y : Z) : result RGBAPixel :=
  if outOfBound this x y || isNULL (root this) then Ok RGBAPixel_default
  else getPixel_node x y (root this) (res this).

(** [decompress()] *)
Definition decompress (this : Quadtree) : result PNG :=
  if isNULL (root this) then Ok PNG_default
  else transform (PNG_new (res this) (res this)) (res this) 0 0 (root this).

End PublicMembers.

(** [clockwiseRotate()] *)
Definition clockwiseRotate (this : Quadtree) : result Quadtree :=
  if negb (isNULL (root this)) then
    node <- clockwiseRotate_node (root this) ;;
    Ok (mkQuadtree node (res this))
  else Ok this.

(** [prune(int tolerance)] *)
Definition prune (this : Quadtree) (tolerance : Z) : result Quadtree :=
  if negb (isNULL (root this)) then
    node <- prune_node tolerance (root this) ;;
    Ok (mkQuadtree node (res this))
  else Ok this.

(** [pruneSize(int tolerance)] *)
Definition pruneSize (this : Quadtree) (tolerance : Z) : result Z :=
  if isNULL (root this) then Ok 0
  else pruneSize_node tolerance (root this).

(** [searchTolerance]; the recursion of the source has no measure that
    decreases on every call, so it is given a budget. *)
Fixpoint searchTolerance (fuel : nat) (this : Quadtree)
  (numLeaves minTolerance maxTolerance : Z) : result Z :=
  match fuel with
  | O => OutOfFuel
  | S fuel' =>
      let tryTolerance := (minTolerance + maxTolerance) ÷ 2 in
      numLeavesAfterTry <- pruneSize this tryTolerance ;;
      if numLeavesAfterTry <=? numLeaves then
        below <- pruneSize this (tryTolerance - 1) ;;
        if numLeaves <? below then Ok tryTolerance
        else searchTolerance fuel' this numLeaves minTolerance tryTolerance
      else searchTolerance fuel' this numLeaves tryTolerance maxTolerance
  end.

(** [idealPrune(int numLeaves)] *)
Definition idealPrune (fuel : nat) (this : Quadtree) (numLeaves : Z) : result Z :=
  if isNULL (root this) then Ok 0
  else searchTolerance fuel this numLeaves MIN_TOLERANCE MAX_TOLERANCE.

(** ** Notions the statements are written with *)

(** Number of non-[NULL] child pointers of a node. *)
Definition numChildren (node : QuadtreeNode) : nat :=
  match node with
  | NULL => O
  | Node nwChild neChild swChild seChild _ =>
      length (filter (fun p => negb (isNULL p))
                [nwChild; neChild; swChild; seChild])
  end.

(** The structural invariant: every node below (and including) [node] has
    zero or four children. *)
Fixpoint zeroOrFour (node : QuadtreeNode) : bool :=
  match node with
  | NULL => true
  | Node nwChild neChild swChild seChild _ =>
      (Nat.eqb (numChildren node) 0 || Nat.eqb (numChildren node) 4)
      && zeroOrFour nwChild && zeroOrFour neChild
      && zeroOrFour swChild && zeroOrFour seChild
  end.

Definition invariant (this : Quadtree) : Prop := zeroOrFour (root this) = true.

(** The tree states the public operations can produce, starting from the
    default constructor.  The constructor from a PNG and the copy
    constructor are [buildTree] and [copyQuadtree] on a fresh object. *)
Inductive reachable : Quadtree -> Prop :=
| reach_default : reachable Quadtree_empty
| reach_buildTree fuel this source resolution this' :
    reachable this ->
    buildTree fuel this source resolution = Ok this' ->
    reachable this'
| reach_copy this other :
    reachable this -> reachable other -> reachable (copyQuadtree this other)
| reach_assign_self this :
    reachable this -> reachable (copyQuadtree_self this)
| reach_prune this tolerance this' :
    reachable this -> prune this tolerance = Ok this' -> reachable this'
| reach_clockwiseRotate this this' :
    reachable this -> clockwiseRotate this = Ok this' -> reachable this'.

(** A count of the actual leaves (nodes with zero children) of a tree. *)
Fixpoint countLeaves (node : QuadtreeNode) : Z :=
  match node with
  | NULL => 0
  | Node nwChild neChild swChild seChild _ =>
      if Nat.eqb (numChildren node) 0 then 1
      else countLeaves nwChild + countLeaves neChild
           + countLeaves swChild + countLeaves seChild
  end.

(** The colours of the leaves of a subtree, nw, ne, sw, se. *)
Fixpoint leafColors (node : QuadtreeNode) : list RGBAPixel :=
  match node with
  | NULL => []
  | Node nwChild neChild swChild seChild element =>
      if Nat.eqb (numChildren node) 0 then [element]
      else leafColors nwChild ++ leafColors neChild
           ++ leafColors swChild ++ leafColors seChild
  end.

(** The colour distance of the spec (section 4.5): the sum of the squared
    differences of the red, green and blue channels. *)
Definition colorDistance (c1 c2 : RGBAPixel) : Z :=
  (to_int (red c2) - to_int (red c1)) ^ 2
  + (to_int (green c2) - to_int (green c1)) ^ 2
  + (to_int (blue c2) - to_int (blue c1)) ^ 2.

(** All leaves of [node] are within [tolerance] of colour [avg]. *)
Definition allWithin (tolerance : Z) (avg : RGBAPixel) (node : QuadtreeNode)
  : bool :=
  forallb (fun c => colorDistance avg c <=? tolerance) (leafColors node).

(** Pruning as the spec words it, in two passes.  The first pass decides
    for every node of the original tree whether all leaves below it are
    within [tolerance] of the node's colour; nothing is deleted yet. *)
Inductive MarkedNode : Type :=
| MNULL : MarkedNode
| MNode (prunable : bool) (nwChild neChild swChild seChild : MarkedNode)
    (element : RGBAPixel).

Fixpoint markPrunable (tolerance : Z) (node : QuadtreeNode) : MarkedNode :=
  match node with
  | NULL => MNULL
  | Node nwChild neChild swChild seChild element =>
      MNode (allWithin tolerance element node)
        (markPrunable tolerance nwChild) (markPrunable tolerance neChild)
        (markPrunable tolerance swChild) (markPrunable tolerance seChild)
        element
  end.

(** The second pass walks down from the root and removes the four subtrees
    of the first marked internal node it meets on each path. *)
Fixpoint collapseMarked (m : MarkedNode) : QuadtreeNode :=
  match m with
  | MNULL => NULL
  | MNode prunable nwChild neChild swChild seChild element =>
      match nwChild with
      | MNULL => Node NULL NULL NULL NULL element
      | MNode _ _ _ _ _ _ =>
          if prunable then Node NULL NULL NULL NULL element
          else Node (collapseMarked nwChild) (collapseMarked neChild)
                 (collapseMarked swChild) (collapseMarked seChild) element
      end
  end.

(** [clockwiseRotate()] called [n] times in a row. *)
Fixpoint clockwiseRotate_times (n : nat) (this : Quadtree) : result Quadtree :=
  match n with
  | O => Ok this
  | S n' => this' <- clockwiseRotate this ;; clockwiseRotate_times n' this'
  end.

(** A source contains the [R] x [R] block at its origin. *)
Definition containsBlock (source : PNG) (R : Z) : Prop :=
  R <= width source /\ R <= height source.

(** [img'] has the shape of [img] and its pixels, except that the
    [s] x [s] block at (x, y) holds the pixels of [source]. *)
Definition blockCopied (source img img' : PNG) (x y s : Z) : Prop :=
  width img' = width img /\ height img' = height img /\
  (forall u v, x <= u < x + s -> y <= v < y + s ->
               pixels img' u v = pixels source u v) /\
  (forall u v, ~ (x <= u < x + s /\ y <= v < y + s) ->
               pixels img' u v = pixels img u v).

(** ** Concrete inputs *)

Definition white : RGBAPixel := mkRGBAPixel xff xff xff xff.

(** A grey pixel of level [v] (mod 256), opaque. *)
Definition grey (v : Z) : RGBAPixel :=
  mkRGBAPixel (to_uint8 v) (to_uint8 v) (to_uint8 v) xff.

(** The [n] x [n] image whose pixel (x, y) is grey of level [x + n * y]. *)
Definition rampImage (n : Z) : PNG := mkPNG n n (fun x y => grey (x + n * y)).

Definition image1 : PNG := rampImage 1.
Definition image2 : PNG := rampImage 2.
Definition image4 : PNG := rampImage 4.

(** The value of a finished call, [dflt] for the others. *)
Definition valueOr {A : Type} (dflt : A) (r : result A) : A :=
  match r with
  | Ok a => a
  | _ => dflt
  end.

(** The trees built from the images above. *)
Definition tree1 : Quadtree :=
  valueOr Quadtree_empty (buildTree 1 Quadtree_empty image1 1).
Definition tree2 : Quadtree :=
  valueOr Quadtree_empty (buildTree 2 Quadtree_empty image2 2).
Definition tree4 : Quadtree :=
  valueOr Quadtree_empty (buildTree 3 Quadtree_empty image4 4).

(** [tree4] pruned with tolerance 30 (its four quadrants collapse), then
    rotated once. *)
Definition tree4_pruned : Quadtree := valueOr Quadtree_empty (prune tree4 30).
Definition tree4_rotated : Quadtree :=
  valueOr Quadtree_empty (clockwiseRotate tree4_pruned).

(** An 8 x 8 image that agrees with [image4] on the 4 x 4 block at the
    origin and is white elsewhere. *)
Definition image4_in_8 : PNG :=
  mkPNG 8 8 (fun x y => if (x <? 4) && (y <? 4) then grey (x + 4 * y) else white).

(** A 32 x 32 image, black except for its upper-left 2 x 2 block: three
    white pixels and one of level 3.  The averages along the nw path are
    192, 48, 12, 3 and 0. *)
Definition image32 : PNG :=
  mkPNG 32 32
    (fun x y =>
       if (x <? 2) && (y <? 2) then
         if (x =? 1) && (y =? 1) then grey 3 else grey 255
       else grey 0).

Definition tree32 : Quadtree :=
  valueOr Quadtree_empty (buildTree 6 Quadtree_empty image32 32).

(** ** The remaining members and the notions of the further properties *)

(** [Quadtree(Quadtree const& other)]: [root] is set to [NULL], [res] is
    not initialised before [copyQuadtree] assigns it; [res0] stands for
    whatever it holds. *)
Definition Quadtree_of_copy (res0 : Z) (other : Quadtree) : Quadtree :=
  copyQuadtree (mkQuadtree NULL res0) other.

(** [operator=] on two different objects; the object assigned to is
    returned. *)
Definition operator_assign (this other : Quadtree) : Quadtree :=
  copyQuadtree this other.


(** No path from [node] to a leaf is longer than [k]. *)
Fixpoint fits (k : nat) (node : QuadtreeNode) : bool :=
  match node with
  | NULL => true
  | Node nwChild neChild swChild seChild _ =>
      if isNULL nwChild then true
      else
        match k with
        | O => false
        | S k' => fits k' nwChild && fits k' neChild
                  && fits k' swChild && fits k' seChild
        end
  end.

(** A non-empty tree for an image of side 2^k: the invariant holds and no
    leaf lies deeper than k. *)
Definition sized (k : nat) (this : Quadtree) : Prop :=
  res this = 2 ^ Z.of_nat k /\ isNULL (root this) = false /\
  zeroOrFour (root this) = true /\ fits k (root this) = true.

(** The colour of the deepest node of the subtree [node], which stands for
    a square of side 2^k, whose region covers the point (u, v) of that
    square; the quadrants are laid out as [buildTree] and [transform] lay
    them out. *)
Fixpoint regionColor (k : nat) (node : QuadtreeNode) (u v : Z)
  : option RGBAPixel :=
  match node with
  | NULL => None
  | Node nwChild neChild swChild seChild element =>
      if isNULL nwChild then Some element
      else
        match k with
        | O => None
        | S k' =>
            let h := 2 ^ Z.of_nat k' in
            if u <? h then
              if v <? h then regionColor k' nwChild u v
              else regionColor k' swChild u (v - h)
            else
              if v <? h then regionColor k' neChild (u - h) v
              else regionColor k' seChild (u - h) (v - h)
        end
  end.

(** The least number of the form 2^m - 1 that is at least [x]. *)
Definition snapCoord (x : Z) : Z := 2 ^ Z.log2_up (x + 1) - 1.

(** The coordinate of the leaf that the descent of [getPixel_node] ends in,
    within a full subtree of side 2^k, for a query coordinate [x >= 0]. *)
Definition leafCoord (k : nat) (x : Z) : Z :=
  if x <? 2 ^ Z.of_nat k then snapCoord x else 2 ^ Z.of_nat k - 1.

(** [img'] has the shape of [img] and its pixels, except that the
    [w] x [h] rectangle at (x, y) holds colour [c]. *)
Definition rectFilled (c : RGBAPixel) (img img' : PNG) (x y w h : Z) : Prop :=
  width img' = width img /\ height img' = height img /\
  (forall u v, x <= u < x + w -> y <= v < y + h -> pixels img' u v = c) /\
  (forall u v, ~ (x <= u < x + w /\ y <= v < y + h) ->
               pixels img' u v = pixels img u v).

(** [img'] has the shape of [img] and its pixels, except that the block of
    side 2^k at (x, y) shows the subtree [node]. *)
Definition blockPainted (k : nat) (node : QuadtreeNode) (img img' : PNG)
  (x y : Z) : Prop :=
  width img' = width img /\ height img' = height img /\
  (forall u v, x <= u < x + 2 ^ Z.of_nat k -> y <= v < y + 2 ^ Z.of_nat k ->
               regionColor k node (u - x) (v - y) = Some (pixels img' u v)) /\
  (forall u v, ~ (x <= u < x + 2 ^ Z.of_nat k /\ y <= v < y + 2 ^ Z.of_nat k) ->
               pixels img' u v = pixels img u v).

(** * Properties *)

(** ** The result monad *)

Lemma bind_Ok_inv {A B : Type} (m : result A) (k : A -> result B) (b : B) :
  bind m k = Ok b -> exists a, m = Ok a /\ k a = Ok b.
Proof.
  destruct m as [a | | |]; simpl; intros H; try discriminate.
  exists a; split; [reflexivity | exact H].
Qed.

(** Splits a hypothesis [x <- m ;; k = Ok b] into its two halves. *)
Ltac bind_inv H :=
  let a := fresh "a" in
  let Ha := fresh "Ha" in
  apply bind_Ok_inv in H; destruct H as (a & Ha & H).

(** ** The shape of trees that satisfy the invariant *)

Lemma isNULL_true (p : QuadtreeNode) : isNULL p = true -> p = NULL.
Proof. destruct p; simpl; [reflexivity | discriminate]. Qed.

(** The test of the source on a node pointer, in the two cases of the
    match the recursive helpers start with. *)
Lemma hasChildren_cases node :
  match node with
  | NULL => hasChildren node = NullDeref
  | Node nwChild _ _ _ _ => hasChildren node = Ok (negb (isNULL nwChild))
  end.
Proof. destruct node; reflexivity. Qed.

Lemma zeroOrFour_unfold nw ne sw se el :
  zeroOrFour (Node nw ne sw se el) =
  (Nat.eqb (numChildren (Node nw ne sw se el)) 0
   || Nat.eqb (numChildren (Node nw ne sw se el)) 4)
  && zeroOrFour nw && zeroOrFour ne && zeroOrFour sw && zeroOrFour se.
Proof. reflexivity. Qed.

Lemma numChildren_shape nw ne sw se el :
  (Nat.eqb (numChildren (Node nw ne sw se el)) 0
   || Nat.eqb (numChildren (Node nw ne sw se el)) 4) = true ->
  (nw = NULL /\ ne = NULL /\ sw = NULL /\ se = NULL) \/
  (isNULL nw = false /\ isNULL ne = false /\ isNULL sw = false
   /\ isNULL se = false).
Proof.
  destruct nw, ne, sw, se; simpl; intros H; try discriminate;
    [left | right]; repeat split.
Qed.

Lemma zeroOrFour_Node nw ne sw se el :
  zeroOrFour (Node nw ne sw se el) = true ->
  (zeroOrFour nw = true /\ zeroOrFour ne = true
   /\ zeroOrFour sw = true /\ zeroOrFour se = true) /\
  ((nw = NULL /\ ne = NULL /\ sw = NULL /\ se = NULL) \/
   (isNULL nw = false /\ isNULL ne = false /\ isNULL sw = false
    /\ isNULL se = false)).
Proof.
  rewrite zeroOrFour_unfold. intros H.
  repeat (apply andb_prop in H; destruct H as [H ?]).
  split; [repeat split; assumption |].
  eapply numChildren_shape; exact H.
Qed.

Lemma zeroOrFour_internal nw ne sw se el :
  isNULL nw = false -> isNULL ne = false -> isNULL sw = false ->
  isNULL se = false ->
  zeroOrFour nw = true -> zeroOrFour ne = true -> zeroOrFour sw = true ->
  zeroOrFour se = true ->
  zeroOrFour (Node nw ne sw se el) = true.
Proof.
  intros Hnw Hne Hsw Hse Inw Ine Isw Ise.
  rewrite zeroOrFour_unfold, Inw, Ine, Isw, Ise.
  destruct nw, ne, sw, se; try discriminate; reflexivity.
Qed.

Lemma numChildren_internal nw ne sw se el :
  isNULL nw = false ->
  Nat.eqb (numChildren (Node nw ne sw se el)) 0 = false.
Proof.
  intros Hnw. destruct nw; [discriminate |].
  destruct ne, sw, se; reflexivity.
Qed.

(** Induction over the non-[NULL] trees that satisfy the invariant: a leaf,
    or a node with four such trees below it. *)
Lemma invariant_node_ind (P : QuadtreeNode -> Prop) :
  (forall el, P (Node NULL NULL NULL NULL el)) ->
  (forall nw ne sw se el,
      isNULL nw = false -> isNULL ne = false ->
      isNULL sw = false -> isNULL se = false ->
      zeroOrFour nw = true -> zeroOrFour ne = true ->
      zeroOrFour sw = true -> zeroOrFour se = true ->
      P nw -> P ne -> P sw -> P se -> P (Node nw ne sw se el)) ->
  forall node, zeroOrFour node = true -> isNULL node = false -> P node.
Proof.
  intros Hleaf Hnode.
  induction node as [| nw IHnw ne IHne sw IHsw se IHse el];
    intros Hinv Hnn; [discriminate |].
  apply zeroOrFour_Node in Hinv.
  destruct Hinv as [(Inw & Ine & Isw & Ise) [(-> & -> & -> & ->) | (Nnw & Nne & Nsw & Nse)]].
  - apply Hleaf.
  - apply Hnode; auto.
Qed.

(** ** Each operation keeps the invariant *)

Lemma deleteQuadtree_node_NULL node : deleteQuadtree_node node = NULL.
Proof. destruct node; reflexivity. Qed.

Lemma deleteQuadtree_root this : root (deleteQuadtree this) = NULL.
Proof.
  unfold deleteQuadtree. destruct (isNULL (root this)) eqn:E.
  - apply isNULL_true; exact E.
  - simpl. apply deleteQuadtree_node_NULL.
Qed.

(** The deep copy of a subtree into a fresh pointer is that subtree. *)
Lemma copyQuadtree_node_clone other : copyQuadtree_node NULL other = other.
Proof.
  induction other as [| nw IHnw ne IHne sw IHsw se IHse el]; simpl.
  - reflexivity.
  - rewrite IHnw, IHne, IHsw, IHse. reflexivity.
Qed.

Lemma copyQuadtree_root this other : root (copyQuadtree this other) = root other.
Proof.
  unfold copyQuadtree. simpl. rewrite deleteQuadtree_root.
  apply copyQuadtree_node_clone.
Qed.

Lemma copyQuadtree_self_root this : root (copyQuadtree_self this) = NULL.
Proof.
  unfold copyQuadtree_self. simpl. rewrite deleteQuadtree_root. reflexivity.
Qed.

Lemma buildTree_node_invariant fuel source :
  forall resolution x y node,
    buildTree_node fuel source resolution x y = Ok node ->
    zeroOrFour node = true /\ isNULL node = false.
Proof.
  induction fuel as [| fuel IH]; intros resolution x y node H;
    [discriminate |].
  cbn [buildTree_node] in H.
  destruct (resolution =? 1).
  - bind_inv H. injection H as <-. split; reflexivity.
  - bind_inv H. rename a into nw, Ha into Hnw.
    bind_inv H. rename a into ne, Ha into Hne.
    bind_inv H. rename a into sw, Ha into Hsw.
    bind_inv H. rename a into se, Ha into Hse.
    bind_inv H. injection H as <-.
    apply IH in Hnw, Hne, Hsw, Hse.
    destruct Hnw, Hne, Hsw, Hse.
    split; [apply zeroOrFour_internal; assumption | reflexivity].
Qed.

Lemma prune_node_invariant tolerance :
  forall node, zeroOrFour node = true -> isNULL node = false ->
  forall node', prune_node tolerance node = Ok node' ->
    zeroOrFour node' = true /\ isNULL node' = false.
Proof.
  apply (invariant_node_ind
    (fun node => forall node', prune_node tolerance node = Ok node' ->
       zeroOrFour node' = true /\ isNULL node' = false)).
  - intros el node' H. injection H as <-. split; reflexivity.
  - intros nw ne sw se el Nnw Nne Nsw Nse Inw Ine Isw Ise
      IHnw IHne IHsw IHse node' H.
    cbn [prune_node] in H. rewrite Nnw in H.
    bind_inv H. destruct a.
    + cbn [pruneChildren] in H. rewrite !deleteQuadtree_node_NULL in H.
      injection H as <-. split; reflexivity.
    + bind_inv H. apply IHnw in Ha0.
      bind_inv H. apply IHne in Ha1.
      bind_inv H. apply IHsw in Ha2.
      bind_inv H. apply IHse in Ha3.
      injection H as <-.
      destruct Ha0, Ha1, Ha2, Ha3.
      split; [apply zeroOrFour_internal; assumption | reflexivity].
Qed.

Lemma clockwiseRotate_node_invariant :
  forall node, zeroOrFour node = true -> isNULL node = false ->
  forall node', clockwiseRotate_node node = Ok node' ->
    zeroOrFour node' = true /\ isNULL node' = false.
Proof.
  apply (invariant_node_ind
    (fun node => forall node', clockwiseRotate_node node = Ok node' ->
       zeroOrFour node' = true /\ isNULL node' = false)).
  - intros el node' H. injection H as <-. split; reflexivity.
  - intros nw ne sw se el Nnw Nne Nsw Nse Inw Ine Isw Ise
      IHnw IHne IHsw IHse node' H.
    cbn [clockwiseRotate_node] in H. rewrite Nnw in H.
    bind_inv H. apply IHsw in Ha.
    bind_inv H. apply IHse in Ha0.
    bind_inv H. apply IHne in Ha1.
    bind_inv H. apply IHnw in Ha2.
    injection H as <-.
    destruct Ha, Ha0, Ha1, Ha2.
    split; [apply zeroOrFour_internal; assumption | reflexivity].
Qed.

Lemma buildTree_invariant fuel this source resolution this' :
  buildTree fuel this source resolution = Ok this' -> invariant this'.
Proof.
  unfold buildTree, invariant. intros H. bind_inv H. injection H as <-.
  simpl. eapply buildTree_node_invariant; eassumption.
Qed.

Lemma copyQuadtree_invariant this other :
  invariant other -> invariant (copyQuadtree this other).
Proof. unfold invariant. rewrite copyQuadtree_root. trivial. Qed.

Lemma copyQuadtree_self_invariant this : invariant (copyQuadtree_self this).
Proof. unfold invariant. rewrite copyQuadtree_self_root. reflexivity. Qed.

Lemma prune_invariant this tolerance this' :
  invariant this -> prune this tolerance = Ok this' -> invariant this'.
Proof.
  unfold prune, invariant. intros Hinv H.
  destruct (isNULL (root this)) eqn:E; simpl in H.
  - injection H as <-. exact Hinv.
  - bind_inv H. injection H as <-. simpl.
    eapply prune_node_invariant; eassumption.
Qed.

Lemma clockwiseRotate_invariant this this' :
  invariant this -> clockwiseRotate this = Ok this' -> invariant this'.
Proof.
  unfold clockwiseRotate, invariant. intros Hinv H.
  destruct (isNULL (root this)) eqn:E; simpl in H.
  - injection H as <-. exact Hinv.
  - bind_inv H. injection H as <-. simpl.
    eapply clockwiseRotate_node_invariant; eassumption.
Qed.

(** C7 (structural invariant).  In every tree state that the public
    operations (default construction, buildTree, copy and assignment,
    prune, clockwiseRotate) can reach, every node has exactly zero or
    exactly four children: the numbers one, two and three never occur.
    The proof goes through the lemmas above, one per operation, each
    saying that the operation keeps the invariant. *)
Theorem reachable_zero_or_four_children :
  forall this, reachable this -> zeroOrFour (root this) = true.
Proof.
  intros this Hreach.
  induction Hreach as
    [ | fuel this source resolution this' _ _ Hb
      | this other _ _ _ IHother
      | this _ _
      | this tolerance this' _ IH Hp
      | this this' _ IH Hr ].
  - reflexivity.
  - exact (buildTree_invariant _ _ _ _ _ Hb).
  - exact (copyQuadtree_invariant this other IHother).
  - exact (copyQuadtree_self_invariant this).
  - exact (prune_invariant _ _ _ IH Hp).
  - exact (clockwiseRotate_invariant _ _ IH Hr).
Qed.

(** ** Fallbacks on the empty tree and outside the image *)

(** C9 (defined fallbacks).  With [d] the default-constructed pixel: on a
    tree whose root is absent, and for coordinates outside
    [0, res) x [0, res) on any tree, getPixel returns [d]; on a tree whose
    root is absent decompress returns the default (empty) grid, pruneSize
    returns 0 for every tolerance and idealPrune returns the minimum
    tolerance 0 for every target, whatever the recursion budget.  Each of
    them ends in a value, not in a fault. *)
Theorem fallbacks_are_defined (d : RGBAPixel) :
  forall (this : Quadtree) (x y tolerance numLeaves : Z) (fuel : nat),
    (x < 0 \/ y < 0 \/ res this <= x \/ res this <= y \/ root this = NULL ->
     getPixel d this x y = Ok d) /\
    (root this = NULL ->
     decompress d this = Ok (PNG_default d) /\
     pruneSize this tolerance = Ok 0 /\
     idealPrune fuel this numLeaves = Ok MIN_TOLERANCE).
Proof.
  intros this x y tolerance numLeaves fuel. split.
  - intros H. unfold getPixel, outOfBound.
    destruct H as [H | [H | [H | [H | H]]]].
    + apply Z.ltb_lt in H. rewrite H. reflexivity.
    + apply Z.ltb_lt in H. rewrite H, !orb_true_r. reflexivity.
    + apply Z.leb_le in H. rewrite H, !orb_true_r. reflexivity.
    + apply Z.leb_le in H. rewrite H, !orb_true_r. reflexivity.
    + rewrite H. simpl. rewrite orb_true_r. reflexivity.
  - intros H. unfold decompress, pruneSize, idealPrune. rewrite H.
    repeat split.
Qed.

(** ** Rotation *)

Lemma clockwiseRotate_node_total :
  forall node, zeroOrFour node = true -> isNULL node = false ->
    exists node', clockwiseRotate_node node = Ok node'.
Proof.
  apply (invariant_node_ind
    (fun node => exists node', clockwiseRotate_node node = Ok node')).
  - intros el. eexists. reflexivity.
  - intros nw ne sw se el Nnw _ _ _ _ _ _ _
      [nw' Hnw] [ne' Hne] [sw' Hsw] [se' Hse].
    cbn [clockwiseRotate_node]. rewrite Nnw, Hsw, Hse, Hne, Hnw.
    eexists. reflexivity.
Qed.

Lemma clockwiseRotate_node_not_NULL node node' :
  clockwiseRotate_node node = Ok node' -> isNULL node' = false.
Proof.
  destruct node as [| nw ne sw se el]; [discriminate |].
  cbn [clockwiseRotate_node]. destruct (isNULL nw).
  - intros H. injection H as <-. reflexivity.
  - intros H. do 4 bind_inv H. injection H as <-. reflexivity.
Qed.

(** Four rotations of a subtree, whenever they all finish, give the
    subtree back: pointer for pointer, not only colour for colour. *)
Lemma clockwiseRotate_node_four :
  forall n0 n1 n2 n3 n4,
    clockwiseRotate_node n0 = Ok n1 -> clockwiseRotate_node n1 = Ok n2 ->
    clockwiseRotate_node n2 = Ok n3 -> clockwiseRotate_node n3 = Ok n4 ->
    n4 = n0.
Proof.
  induction n0 as [| nw IHnw ne IHne sw IHsw se IHse el];
    intros n1 n2 n3 n4 H1 H2 H3 H4; [discriminate |].
  cbn [clockwiseRotate_node] in H1. destruct (isNULL nw) eqn:Nnw.
  - injection H1 as <-.
    cbn [clockwiseRotate_node] in H2. rewrite Nnw in H2. injection H2 as <-.
    cbn [clockwiseRotate_node] in H3. rewrite Nnw in H3. injection H3 as <-.
    cbn [clockwiseRotate_node] in H4. rewrite Nnw in H4. injection H4 as <-.
    reflexivity.
  - bind_inv H1. rename a into sw1, Ha into Hsw1.
    bind_inv H1. rename a into se1, Ha into Hse1.
    bind_inv H1. rename a into ne1, Ha into Hne1.
    bind_inv H1. rename a into nw1, Ha into Hnw1.
    injection H1 as <-.
    cbn [clockwiseRotate_node] in H2.
    rewrite (clockwiseRotate_node_not_NULL _ _ Hsw1) in H2.
    bind_inv H2. rename a into se2, Ha into Hse2.
    bind_inv H2. rename a into ne2, Ha into Hne2.
    bind_inv H2. rename a into nw2, Ha into Hnw2.
    bind_inv H2. rename a into sw2, Ha into Hsw2.
    injection H2 as <-.
    cbn [clockwiseRotate_node] in H3.
    rewrite (clockwiseRotate_node_not_NULL _ _ Hse2) in H3.
    bind_inv H3. rename a into ne3, Ha into Hne3.
    bind_inv H3. rename a into nw3, Ha into Hnw3.
    bind_inv H3. rename a into sw3, Ha into Hsw3.
    bind_inv H3. rename a into se3, Ha into Hse3.
    injection H3 as <-.
    cbn [clockwiseRotate_node] in H4.
    rewrite (clockwiseRotate_node_not_NULL _ _ Hne3) in H4.
    bind_inv H4. rename a into nw4, Ha into Hnw4.
    bind_inv H4. rename a into sw4, Ha into Hsw4.
    bind_inv H4. rename a into se4, Ha into Hse4.
    bind_inv H4. rename a into ne4, Ha into Hne4.
    injection H4 as <-.
    rewrite (IHnw _ _ _ _ Hnw1 Hnw2 Hnw3 Hnw4).
    rewrite (IHne _ _ _ _ Hne1 Hne2 Hne3 Hne4).
    rewrite (IHsw _ _ _ _ Hsw1 Hsw2 Hsw3 Hsw4).
    rewrite (IHse _ _ _ _ Hse1 Hse2 Hse3 Hse4).
    reflexivity.
Qed.

Lemma clockwiseRotate_total this :
  invariant this ->
  exists this', clockwiseRotate this = Ok this' /\ invariant this'
                /\ res this' = res this
                /\ isNULL (root this') = isNULL (root this).
Proof.
  intros Hinv. unfold clockwiseRotate.
  destruct (isNULL (root this)) eqn:E; simpl.
  - exists this. auto.
  - destruct (clockwiseRotate_node_total _ Hinv E) as [node' H].
    rewrite H. simpl. eexists. split; [reflexivity |].
    destruct (clockwiseRotate_node_invariant _ Hinv E _ H) as [I N].
    repeat split; assumption.
Qed.

Lemma clockwiseRotate_root_inv this this' :
  clockwiseRotate this = Ok this' ->
  res this' = res this /\
  ((isNULL (root this) = true /\ this' = this) \/
   (isNULL (root this) = false /\
    clockwiseRotate_node (root this) = Ok (root this'))).
Proof.
  unfold clockwiseRotate. destruct (isNULL (root this)) eqn:E; simpl.
  - intros H. injection H as <-. auto.
  - intros H. bind_inv H. injection H as <-. simpl. auto.
Qed.

Lemma getPixel_node_total :
  forall node, zeroOrFour node = true -> isNULL node = false ->
  forall x y resolution, exists c, getPixel_node x y node resolution = Ok c.
Proof.
  apply (invariant_node_ind
    (fun node => forall x y resolution,
       exists c, getPixel_node x y node resolution = Ok c)).
  - intros el x y resolution. exists el. reflexivity.
  - intros nw ne sw se el Nnw _ _ _ _ _ _ _ IHnw IHne IHsw IHse x y resolution.
    cbn [getPixel_node]. rewrite Nnw.
    destruct ((x <? resolution ÷ 2) && (y <? resolution ÷ 2)); [apply IHnw |].
    destruct ((x <? resolution ÷ 2) && (resolution ÷ 2 <=? y)); [apply IHsw |].
    destruct ((resolution ÷ 2 <=? x) && (y <? resolution ÷ 2)); [apply IHne |].
    apply IHse.
Qed.

Lemma getPixel_total (d : RGBAPixel) this x y :
  invariant this -> exists c, getPixel d this x y = Ok c.
Proof.
  intros Hinv. unfold getPixel.
  destruct (isNULL (root this)) eqn:E.
  - rewrite orb_true_r. exists d. reflexivity.
  - rewrite orb_false_r. destruct (outOfBound this x y).
    + exists d. reflexivity.
    + apply getPixel_node_total; assumption.
Qed.

(** C8 (rotation identity).  On every tree that satisfies the structural
    invariant (every reachable tree does, and the empty tree is one of
    them) four consecutive calls of clockwiseRotate finish, and on the tree
    they leave getPixel returns at every coordinate (x, y), inside or
    outside the image, the colour it returns on the original tree. *)
Theorem four_rotations_restore_getPixel (d : RGBAPixel) :
  forall (this : Quadtree) (x y : Z),
    invariant this ->
    exists this4 c,
      clockwiseRotate_times 4 this = Ok this4 /\
      getPixel d this x y = Ok c /\
      getPixel d this4 x y = Ok c.
Proof.
  intros this x y Hinv.
  destruct (clockwiseRotate_total this Hinv) as (t1 & H1 & I1 & _).
  destruct (clockwiseRotate_total t1 I1) as (t2 & H2 & I2 & _).
  destruct (clockwiseRotate_total t2 I2) as (t3 & H3 & I3 & _).
  destruct (clockwiseRotate_total t3 I3) as (t4 & H4 & I4 & _).
  destruct (getPixel_total d this x y Hinv) as [c Hc].
  exists t4, c. split; [| split; [exact Hc |]].
  - cbn [clockwiseRotate_times]. rewrite H1; simpl. rewrite H2; simpl.
    rewrite H3; simpl. rewrite H4; reflexivity.
  - assert (E : t4 = this); [| rewrite E; exact Hc].
    destruct (clockwiseRotate_root_inv _ _ H1) as [R1 [[N1 E1] | [N1 C1]]].
    + subst t1. rewrite H1 in H2. injection H2 as <-.
      rewrite H1 in H3. injection H3 as <-.
      rewrite H1 in H4. injection H4 as <-. reflexivity.
    + destruct (clockwiseRotate_root_inv _ _ H2) as [R2 [[N2 E2] | [N2 C2]]];
        [rewrite (clockwiseRotate_node_not_NULL _ _ C1) in N2; discriminate |].
      destruct (clockwiseRotate_root_inv _ _ H3) as [R3 [[N3 E3] | [N3 C3]]];
        [rewrite (clockwiseRotate_node_not_NULL _ _ C2) in N3; discriminate |].
      destruct (clockwiseRotate_root_inv _ _ H4) as [R4 [[N4 E4] | [N4 C4]]];
        [rewrite (clockwiseRotate_node_not_NULL _ _ C3) in N4; discriminate |].
      pose proof (clockwiseRotate_node_four _ _ _ _ _ C1 C2 C3 C4) as Eroot.
      destruct t4 as [r4 s4], this as [r0 s0]. simpl in *.
      congruence.
Qed.

(** ** The prunability test *)

Lemma isPrunable_colorDistance tolerance avgPixel nodePixel :
  isPrunable tolerance avgPixel nodePixel
  = (colorDistance avgPixel nodePixel <=? tolerance).
Proof.
  unfold isPrunable, colorDistance, square. f_equal. ring.
Qed.

Lemma leafColors_internal nw ne sw se el :
  isNULL nw = false ->
  leafColors (Node nw ne sw se el)
  = leafColors nw ++ leafColors ne ++ leafColors sw ++ leafColors se.
Proof.
  intros Nnw. cbn [leafColors]. rewrite numChildren_internal by assumption.
  reflexivity.
Qed.

Lemma countLeaves_internal nw ne sw se el :
  isNULL nw = false ->
  countLeaves (Node nw ne sw se el)
  = countLeaves nw + countLeaves ne + countLeaves sw + countLeaves se.
Proof.
  intros Nnw. cbn [countLeaves]. rewrite numChildren_internal by assumption.
  reflexivity.
Qed.

(** On a tree that satisfies the invariant the traversal of
    [isChildrenPrunable] finishes and computes the subtree-wide test. *)
Lemma isChildrenPrunable_allWithin tolerance rootNode avg :
  elementOf rootNode = Ok avg ->
  forall node, zeroOrFour node = true -> isNULL node = false ->
    isChildrenPrunable tolerance rootNode node
    = Ok (allWithin tolerance avg node).
Proof.
  intros Havg.
  apply (invariant_node_ind
    (fun node => isChildrenPrunable tolerance rootNode node
                 = Ok (allWithin tolerance avg node))).
  - intros el. cbn [isChildrenPrunable isNULL]. rewrite Havg.
    unfold allWithin. simpl. rewrite isPrunable_colorDistance, andb_true_r.
    reflexivity.
  - intros nw ne sw se el Nnw _ _ _ _ _ _ _ IHnw IHne IHsw IHse.
    cbn [isChildrenPrunable]. rewrite Nnw, IHnw, IHne, IHsw, IHse. simpl.
    unfold allWithin. rewrite leafColors_internal by assumption.
    rewrite !forallb_app, !andb_assoc. reflexivity.
Qed.

Lemma allWithin_monotone t1 t2 avg node :
  t1 <= t2 -> allWithin t1 avg node = true -> allWithin t2 avg node = true.
Proof.
  unfold allWithin. intros Hle H.
  rewrite forallb_forall in *. intros c Hc.
  specialize (H c Hc). apply Z.leb_le in H. apply Z.leb_le. lia.
Qed.

(** ** pruneSize *)

(** On a tree that satisfies the invariant [pruneSize] finishes, counts at
    least one leaf, and a larger tolerance never gives a larger count. *)
Lemma pruneSize_node_monotone :
  forall node, zeroOrFour node = true -> isNULL node = false ->
  forall t1 t2, t1 <= t2 ->
    exists n1 n2,
      pruneSize_node t1 node = Ok n1 /\ pruneSize_node t2 node = Ok n2 /\
      1 <= n2 <= n1.
Proof.
  apply (invariant_node_ind
    (fun node => forall t1 t2, t1 <= t2 ->
       exists n1 n2,
         pruneSize_node t1 node = Ok n1 /\ pruneSize_node t2 node = Ok n2 /\
         1 <= n2 <= n1)).
  - intros el t1 t2 _. exists 1, 1. repeat split; lia.
  - intros nw ne sw se el Nnw Nne Nsw Nse Inw Ine Isw Ise
      IHnw IHne IHsw IHse t1 t2 Hle.
    destruct (IHnw t1 t2 Hle) as (a1 & a2 & Ea1 & Ea2 & Ha).
    destruct (IHne t1 t2 Hle) as (b1 & b2 & Eb1 & Eb2 & Hb).
    destruct (IHsw t1 t2 Hle) as (c1 & c2 & Ec1 & Ec2 & Hc).
    destruct (IHse t1 t2 Hle) as (d1 & d2 & Ed1 & Ed2 & Hd).
    assert (Inode : zeroOrFour (Node nw ne sw se el) = true)
      by (apply zeroOrFour_internal; assumption).
    cbn [pruneSize_node]. rewrite Nnw.
    rewrite !(isChildrenPrunable_allWithin _ (Node nw ne sw se el) el eq_refl
               _ Inode eq_refl).
    cbn [bind].
    rewrite Ea1, Eb1, Ec1, Ed1, Ea2, Eb2, Ec2, Ed2. cbn [bind].
    destruct (allWithin t1 el (Node nw ne sw se el)) eqn:P1.
    + rewrite (allWithin_monotone t1 t2 _ _ Hle P1).
      exists 1, 1. repeat split; lia.
    + destruct (allWithin t2 el (Node nw ne sw se el)).
      * exists (a1 + b1 + c1 + d1), 1. repeat split; lia.
      * exists (a1 + b1 + c1 + d1), (a2 + b2 + c2 + d2). repeat split; lia.
Qed.

Lemma pruneSize_antitone :
  forall (this : Quadtree) (t1 t2 : Z),
    invariant this -> t1 <= t2 ->
    exists n1 n2,
      pruneSize this t1 = Ok n1 /\ pruneSize this t2 = Ok n2 /\ n2 <= n1.
Proof.
  intros this t1 t2 Hinv Hle. unfold pruneSize.
  destruct (isNULL (root this)) eqn:E.
  - exists 0, 0. repeat split; lia.
  - destruct (pruneSize_node_monotone _ Hinv E t1 t2 Hle)
      as (n1 & n2 & H1 & H2 & Hn).
    exists n1, n2. repeat split; try assumption; lia.
Qed.

(** C5 (monotonicity).  On every tree that satisfies the structural
    invariant, and for all tolerances t1 <= t2 (negative ones included),
    pruneSize returns a count for both and pruneSize(t1) >= pruneSize(t2):
    raising the tolerance never increases the number of leaves that pruning
    would leave. *)
Theorem pruneSize_monotone :
  forall (this : Quadtree) (t1 t2 : Z),
    invariant this -> t1 <= t2 ->
    exists n1 n2,
      pruneSize this t1 = Ok n1 /\ pruneSize this t2 = Ok n2 /\ n1 >= n2.
Proof.
  intros this t1 t2 Hinv Hle.
  destruct (pruneSize_antitone this t1 t2 Hinv Hle) as (n1 & n2 & H1 & H2 & Hn).
  exists n1, n2. repeat split; try assumption; lia.
Qed.

(** ** prune against its two-pass description *)

Lemma collapseMarked_not_NULL tolerance node :
  isNULL node = false ->
  isNULL (collapseMarked (markPrunable tolerance node)) = false.
Proof.
  destruct node as [| nw ne sw se el]; [discriminate |]. intros _.
  cbn [markPrunable collapseMarked].
  destruct (markPrunable tolerance nw); [reflexivity |].
  destruct (allWithin tolerance el (Node nw ne sw se el)); reflexivity.
Qed.

Lemma collapseMarked_internal tolerance nw ne sw se el :
  isNULL nw = false ->
  collapseMarked (markPrunable tolerance (Node nw ne sw se el))
  = if allWithin tolerance el (Node nw ne sw se el)
    then Node NULL NULL NULL NULL el
    else Node (collapseMarked (markPrunable tolerance nw))
              (collapseMarked (markPrunable tolerance ne))
              (collapseMarked (markPrunable tolerance sw))
              (collapseMarked (markPrunable tolerance se)) el.
Proof.
  intros Nnw. cbn [markPrunable collapseMarked].
  destruct nw; [discriminate | reflexivity].
Qed.

(** [prune] deletes exactly what the marks computed on the original tree
    say, and [pruneSize] counts the leaves that are left. *)
Lemma prune_node_two_pass tolerance :
  forall node, zeroOrFour node = true -> isNULL node = false ->
    prune_node tolerance node
    = Ok (collapseMarked (markPrunable tolerance node)) /\
    pruneSize_node tolerance node
    = Ok (countLeaves (collapseMarked (markPrunable tolerance node))).
Proof.
  apply (invariant_node_ind
    (fun node =>
       prune_node tolerance node
       = Ok (collapseMarked (markPrunable tolerance node)) /\
       pruneSize_node tolerance node
       = Ok (countLeaves (collapseMarked (markPrunable tolerance node))))).
  - intros el. split; reflexivity.
  - intros nw ne sw se el Nnw Nne Nsw Nse Inw Ine Isw Ise
      [Pnw Snw] [Pne Sne] [Psw Ssw] [Pse Sse].
    assert (Inode : zeroOrFour (Node nw ne sw se el) = true)
      by (apply zeroOrFour_internal; assumption).
    rewrite collapseMarked_internal by assumption.
    cbn [prune_node pruneSize_node]. rewrite Nnw.
    rewrite !(isChildrenPrunable_allWithin _ (Node nw ne sw se el) el eq_refl
               _ Inode eq_refl).
    cbn [bind].
    destruct (allWithin tolerance el (Node nw ne sw se el)).
    + cbn [pruneChildren]. rewrite !deleteQuadtree_node_NULL.
      split; reflexivity.
    + rewrite Pnw, Pne, Psw, Pse, Snw, Sne, Ssw, Sse. cbn [bind].
      rewrite countLeaves_internal
        by (apply collapseMarked_not_NULL; assumption).
      split; reflexivity.
Qed.

(** C6 (prune / pruneSize agreement).  On every tree that satisfies the
    structural invariant and for every tolerance, prune finishes, and the
    number of actual leaves of the tree it leaves equals the value that
    pruneSize returns on the tree before pruning.  The pruned tree is the
    one obtained in two passes: first every node of the original tree is
    marked prunable or not (all leaves below it within the tolerance of its
    colour, on the original tree), then the subtrees below marked nodes are
    removed; so nothing is re-evaluated after a partial pruning. *)
Theorem prune_agrees_with_pruneSize :
  forall (this : Quadtree) (tolerance : Z),
    invariant this ->
    exists this',
      prune this tolerance = Ok this' /\
      pruneSize this tolerance = Ok (countLeaves (root this')) /\
      root this' = collapseMarked (markPrunable tolerance (root this)) /\
      res this' = res this.
Proof.
  intros this tolerance Hinv. unfold prune, pruneSize.
  destruct (isNULL (root this)) eqn:E; cbn [negb].
  - exists this. apply isNULL_true in E. rewrite E. repeat split.
  - destruct (prune_node_two_pass tolerance _ Hinv E) as [P S].
    rewrite P, S. cbn [bind]. eexists. repeat split.
Qed.

(** ** buildTree *)

Lemma pow2_pos (k : nat) : 0 < 2 ^ Z.of_nat k.
Proof. apply Z.pow_pos_nonneg; lia. Qed.

Lemma pow2_succ (k : nat) : 2 ^ Z.of_nat (S k) = 2 * 2 ^ Z.of_nat k.
Proof. rewrite Nat2Z.inj_succ. apply Z.pow_succ_r. lia. Qed.

Lemma pow2_succ_half (k : nat) : 2 ^ Z.of_nat (S k) ÷ 2 = 2 ^ Z.of_nat k.
Proof. rewrite pow2_succ, Z.mul_comm. apply Z.quot_mul. lia. Qed.

Lemma pow2_succ_not_1 (k : nat) : (2 ^ Z.of_nat (S k) =? 1) = false.
Proof. apply Z.eqb_neq. rewrite pow2_succ. pose proof (pow2_pos k). lia. Qed.

Lemma pixelAt_inside img x y :
  0 <= x < width img -> 0 <= y < height img ->
  pixelAt img x y = Ok (pixels img x y).
Proof.
  intros Hx Hy. unfold pixelAt, inImage.
  replace (0 <=? x) with true by (symmetry; apply Z.leb_le; lia).
  replace (x <? width img) with true by (symmetry; apply Z.ltb_lt; lia).
  replace (0 <=? y) with true by (symmetry; apply Z.leb_le; lia).
  replace (y <? height img) with true by (symmetry; apply Z.ltb_lt; lia).
  reflexivity.
Qed.

Lemma setPixelAt_inside img x y c :
  0 <= x < width img -> 0 <= y < height img ->
  setPixelAt img x y c
  = Ok (mkPNG (width img) (height img)
          (fun x' y' => if (x' =? x) && (y' =? y) then c
                        else pixels img x' y')).
Proof.
  intros Hx Hy. unfold setPixelAt, inImage.
  replace (0 <=? x) with true by (symmetry; apply Z.leb_le; lia).
  replace (x <? width img) with true by (symmetry; apply Z.ltb_lt; lia).
  replace (0 <=? y) with true by (symmetry; apply Z.leb_le; lia).
  replace (y <? height img) with true by (symmetry; apply Z.ltb_lt; lia).
  reflexivity.
Qed.

(** With a budget above the depth log2 of the resolution, and the block
    inside the source, the construction finishes. *)
Lemma buildTree_node_total source :
  forall (k fuel : nat) (x y : Z),
    (k < fuel)%nat -> 0 <= x -> 0 <= y ->
    x + 2 ^ Z.of_nat k <= width source ->
    y + 2 ^ Z.of_nat k <= height source ->
    exists node, buildTree_node fuel source (2 ^ Z.of_nat k) x y = Ok node.
Proof.
  induction k as [| k IH]; intros fuel x y Hfuel Hx Hy Hw Hh;
    (destruct fuel as [| fuel]; [lia |]); cbn [buildTree_node].
  - change (2 ^ Z.of_nat 0 =? 1) with true. cbv iota.
    change (2 ^ Z.of_nat 0) with 1 in Hw, Hh.
    rewrite pixelAt_inside by lia. eexists. reflexivity.
  - rewrite pow2_succ_not_1, pow2_succ_half.
    rewrite pow2_succ in Hw, Hh. pose proof (pow2_pos k) as Hpos.
    destruct (IH fuel x y) as [nw Hnw]; try lia.
    destruct (IH fuel (x + 2 ^ Z.of_nat k) y) as [ne Hne]; try lia.
    destruct (IH fuel x (y + 2 ^ Z.of_nat k)) as [sw Hsw]; try lia.
    destruct (IH fuel (x + 2 ^ Z.of_nat k) (y + 2 ^ Z.of_nat k)) as [se Hse];
      try lia.
    rewrite Hnw, Hne, Hsw, Hse. cbn [bind].
    apply buildTree_node_invariant in Hnw, Hne, Hsw, Hse.
    destruct Hnw as [_ Nnw], Hne as [_ Nne], Hsw as [_ Nsw], Hse as [_ Nse].
    destruct nw; [discriminate |]. destruct ne; [discriminate |].
    destruct sw; [discriminate |]. destruct se; [discriminate |].
    eexists. reflexivity.
Qed.

(** On a tree just built from the block at (x, y) of [source], [transform]
    finishes and writes that block of [source] into the image, leaving the
    rest of the image as it was. *)
Lemma transform_buildTree_node source :
  forall (fuel : nat) (k : nat) (x y : Z) (node : QuadtreeNode) (img : PNG),
    0 <= x -> 0 <= y ->
    x + 2 ^ Z.of_nat k <= width img -> y + 2 ^ Z.of_nat k <= height img ->
    buildTree_node fuel source (2 ^ Z.of_nat k) x y = Ok node ->
    exists img',
      transform img (2 ^ Z.of_nat k) x y node = Ok img' /\
      blockCopied source img img' x y (2 ^ Z.of_nat k).
Proof.
  induction fuel as [| fuel IH]; intros k x y node img Hx Hy Hw Hh Hb;
    [discriminate |].
  cbn [buildTree_node] in Hb. destruct k as [| k].
  - change (2 ^ Z.of_nat 0) with 1 in *. cbn [Z.eqb] in Hb. cbv iota in Hb.
    bind_inv Hb. injection Hb as <-.
    unfold pixelAt in Ha. destruct (inImage source x y); [| discriminate].
    injection Ha as <-.
    cbn [transform QuadtreeNode_new isNULL]. change (Z.to_nat 1) with 1%nat.
    cbn [for_loop bind]. rewrite !Z.add_0_r.
    rewrite setPixelAt_inside by lia. cbn [bind].
    eexists. split; [reflexivity |]. unfold blockCopied. cbn [width height pixels].
    repeat split.
    + intros u v Hu Hv.
      replace (u =? x) with true by (symmetry; apply Z.eqb_eq; lia).
      replace (v =? y) with true by (symmetry; apply Z.eqb_eq; lia).
      assert (u = x) as -> by lia. assert (v = y) as -> by lia. reflexivity.
    + intros u v Hn.
      destruct (Z.eqb_spec u x) as [-> |]; [| reflexivity].
      destruct (Z.eqb_spec v y) as [-> |]; [| reflexivity].
      exfalso. apply Hn. lia.
  - rewrite pow2_succ_not_1, pow2_succ_half in Hb.
    bind_inv Hb. rename a into nw, Ha into Hnw.
    bind_inv Hb. rename a into ne, Ha into Hne.
    bind_inv Hb. rename a into sw, Ha into Hsw.
    bind_inv Hb. rename a into se, Ha into Hse.
    bind_inv Hb. injection Hb as <-.
    cbn [transform].
    rewrite (proj2 (buildTree_node_invariant _ _ _ _ _ _ Hnw)).
    rewrite pow2_succ_half.
    rewrite pow2_succ in Hw, Hh. rewrite pow2_succ.
    pose proof (pow2_pos k) as Hpos.
    destruct (IH k x y nw img) as (s1 & T1 & W1 & H1 & I1 & O1);
      try assumption; try lia.
    destruct (IH k (x + 2 ^ Z.of_nat k) y ne s1) as (s2 & T2 & W2 & H2 & I2 & O2);
      try assumption; try lia.
    destruct (IH k x (y + 2 ^ Z.of_nat k) sw s2) as (s3 & T3 & W3 & H3 & I3 & O3);
      try assumption; try lia.
    destruct (IH k (x + 2 ^ Z.of_nat k) (y + 2 ^ Z.of_nat k) se s3) as (s4 & T4 & W4 & H4 & I4 & O4);
      try assumption; try lia.
    rewrite T1; cbn [bind]. rewrite T2; cbn [bind]. rewrite T3; cbn [bind].
    exists s4. split; [exact T4 |].
    unfold blockCopied. split; [lia |]. split; [lia |]. split.
    + intros u v Hu Hv.
      destruct (Z.lt_ge_cases u (x + 2 ^ Z.of_nat k)) as [Lu | Gu];
        destruct (Z.lt_ge_cases v (y + 2 ^ Z.of_nat k)) as [Lv | Gv].
      * rewrite O4, O3, O2 by lia. apply I1; lia.
      * rewrite O4 by lia. apply I3; lia.
      * rewrite O4, O3 by lia. apply I2; lia.
      * apply I4; lia.
    + intros u v Hn. rewrite O4, O3, O2, O1 by lia. reflexivity.
Qed.

(** C4 (round trip).  For every source that contains the R x R block at its
    origin, R = 2^k, building a tree at resolution R (with a recursion
    budget above k, on whatever tree the object held before) finishes, and
    decompress on that tree, with no pruning in between, finishes with an
    R x R grid whose pixel at every (x, y) of the block is the pixel of the
    source at (x, y). *)
Theorem buildTree_decompress_roundtrip (d : RGBAPixel) :
  forall (k fuel : nat) (this : Quadtree) (source : PNG),
    (k < fuel)%nat ->
    containsBlock source (2 ^ Z.of_nat k) ->
    exists this' img,
      buildTree fuel this source (2 ^ Z.of_nat k) = Ok this' /\
      decompress d this' = Ok img /\
      width img = 2 ^ Z.of_nat k /\ height img = 2 ^ Z.of_nat k /\
      forall x y, 0 <= x < 2 ^ Z.of_nat k -> 0 <= y < 2 ^ Z.of_nat k ->
        exists c, pixelAt source x y = Ok c /\ pixelAt img x y = Ok c.
Proof.
  intros k fuel this source Hfuel [Hw Hh].
  destruct (buildTree_node_total source k fuel 0 0) as [node Hb];
    try assumption; try lia.
  destruct (buildTree_node_invariant _ _ _ _ _ _ Hb) as [_ Nn].
  destruct (transform_buildTree_node source fuel k 0 0 node
              (PNG_new d (2 ^ Z.of_nat k) (2 ^ Z.of_nat k)))
    as (img & T & W & H & I & _); try assumption; cbn [PNG_new width height];
    try lia.
  exists (mkQuadtree node (2 ^ Z.of_nat k)), img.
  unfold buildTree. rewrite Hb. cbn [bind]. split; [reflexivity |].
  unfold decompress. cbn [root res]. rewrite Nn. split; [exact T |].
  cbn [PNG_new width height] in W, H.
  split; [exact W |]. split; [exact H |].
  intros x y Hx Hy. exists (pixels source x y).
  split; [apply pixelAt_inside; lia |].
  rewrite pixelAt_inside by lia. f_equal. apply I; lia.
Qed.

(** The tree built for a block depends on the source through the pixels of
    that block only. *)
Lemma buildTree_node_block_only source1 source2 :
  forall (fuel k : nat) (x y : Z),
    (forall u v, x <= u < x + 2 ^ Z.of_nat k -> y <= v < y + 2 ^ Z.of_nat k ->
                 pixelAt source1 u v = pixelAt source2 u v) ->
    buildTree_node fuel source1 (2 ^ Z.of_nat k) x y
    = buildTree_node fuel source2 (2 ^ Z.of_nat k) x y.
Proof.
  induction fuel as [| fuel IH]; intros k x y Hagree; [reflexivity |].
  cbn [buildTree_node]. destruct k as [| k].
  - change (2 ^ Z.of_nat 0) with 1 in *. cbn [Z.eqb]. cbv iota.
    rewrite (Hagree x y) by lia. reflexivity.
  - rewrite pow2_succ_not_1, pow2_succ_half.
    rewrite pow2_succ in Hagree. pose proof (pow2_pos k) as Hpos.
    rewrite (IH k x y) by (intros; apply Hagree; lia).
    rewrite (IH k (x + 2 ^ Z.of_nat k) y) by (intros; apply Hagree; lia).
    rewrite (IH k x (y + 2 ^ Z.of_nat k)) by (intros; apply Hagree; lia).
    rewrite (IH k (x + 2 ^ Z.of_nat k) (y + 2 ^ Z.of_nat k))
      by (intros; apply Hagree; lia).
    reflexivity.
Qed.

(** C10 (buildTree reads only the target region).  For R = 2^k and two
    sources that both contain the R x R block at the origin and agree on
    every pixel (x, y) with 0 <= x < R and 0 <= y < R, building at
    resolution R from either source (budget above k, on whatever trees the
    two objects held before) finishes with the same tree: pixels outside
    the block never influence the result. *)
Theorem buildTree_reads_only_block :
  forall (k fuel : nat) (this1 this2 : Quadtree) (source1 source2 : PNG),
    (k < fuel)%nat ->
    containsBlock source1 (2 ^ Z.of_nat k) ->
    containsBlock source2 (2 ^ Z.of_nat k) ->
    (forall x y, 0 <= x < 2 ^ Z.of_nat k -> 0 <= y < 2 ^ Z.of_nat k ->
                 pixels source1 x y = pixels source2 x y) ->
    exists this',
      buildTree fuel this1 source1 (2 ^ Z.of_nat k) = Ok this' /\
      buildTree fuel this2 source2 (2 ^ Z.of_nat k) = Ok this'.
Proof.
  intros k fuel this1 this2 source1 source2 Hfuel [Hw1 Hh1] [Hw2 Hh2] Hagree.
  destruct (buildTree_node_total source1 k fuel 0 0) as [node Hb];
    try assumption; try lia.
  exists (mkQuadtree node (2 ^ Z.of_nat k)). unfold buildTree.
  rewrite <- (buildTree_node_block_only source1 source2 fuel k 0 0).
  - rewrite Hb. split; reflexivity.
  - intros u v Hu Hv. rewrite !pixelAt_inside by lia. f_equal.
    apply Hagree; lia.
Qed.

(** ** getPixel against decompress *)

(** C1 (getPixel agrees with decompress): the code does not do this.
    [getPixel_node] passes (x, y) on to the chosen child unchanged, without
    making them relative to the child's region.  On the tree built from the
    4 x 4 image [image4], getPixel(2, 0) descends ne, then ne again, and
    returns the pixel of the source at (3, 0), whereas decompress writes the
    pixel of the source at (2, 0) there. *)
Theorem getPixel_differs_from_decompress :
  exists this,
    buildTree 3 Quadtree_empty image4 4 = Ok this /\
    getPixel white this 2 0 = pixelAt image4 3 0 /\
    (img <- decompress white this ;; pixelAt img 2 0) = pixelAt image4 2 0 /\
    pixelAt image4 3 0 = Ok (grey 3) /\
    pixelAt image4 2 0 = Ok (grey 2) /\
    grey 3 <> grey 2.
Proof.
  exists tree4. repeat split; try (vm_compute; reflexivity).
  vm_compute. discriminate.
Qed.

(** ** The tolerance search *)

Lemma midpoint_bounds lo hi :
  0 <= lo <= hi -> lo <= (lo + hi) ÷ 2 <= hi.
Proof.
  intros H. rewrite Z.quot_div_nonneg by lia.
  split; [apply Z.div_le_lower_bound | apply Z.div_le_upper_bound]; lia.
Qed.

Lemma midpoint_below lo hi : 0 <= lo < hi -> (lo + hi) ÷ 2 < hi.
Proof.
  intros H. rewrite Z.quot_div_nonneg by lia.
  apply Z.div_lt_upper_bound; lia.
Qed.

(** When the unpruned tree already has at most [numLeaves] leaves, the probe
    at [tryTolerance - 1] never exceeds [numLeaves], and every call of
    [searchTolerance] makes another one: no budget is enough. *)
Lemma searchTolerance_diverges_low this numLeaves n :
  invariant this ->
  pruneSize this (-1) = Ok n -> n <= numLeaves ->
  forall fuel lo hi, 0 <= lo <= hi ->
    searchTolerance fuel this numLeaves lo hi = OutOfFuel.
Proof.
  intros Hinv Hn Hle.
  induction fuel as [| fuel IH]; intros lo hi Hlh; [reflexivity |].
  cbn [searchTolerance].
  pose proof (midpoint_bounds lo hi Hlh) as Hmid.
  destruct (pruneSize_antitone this (-1) ((lo + hi) ÷ 2) Hinv)
    as (a & n1 & Ea & E1 & L1); [lia |].
  destruct (pruneSize_antitone this (-1) ((lo + hi) ÷ 2 - 1) Hinv)
    as (b & n2 & Eb & E2 & L2); [lia |].
  rewrite Hn in Ea, Eb. injection Ea as <-. injection Eb as <-.
  rewrite E1. cbn [bind].
  replace (n1 <=? numLeaves) with true by (symmetry; apply Z.leb_le; lia).
  rewrite E2. cbn [bind].
  replace (numLeaves <? n2) with false by (symmetry; apply Z.ltb_ge; lia).
  apply IH. lia.
Qed.

(** When every tolerance below [hi] leaves more than [numLeaves] leaves,
    the probe, which is always below [hi], is always too small, and the
    search goes on for ever without trying [hi] itself. *)
Lemma searchTolerance_diverges_high this numLeaves hi n :
  invariant this ->
  pruneSize this (hi - 1) = Ok n -> numLeaves < n ->
  forall fuel lo, 0 <= lo < hi ->
    searchTolerance fuel this numLeaves lo hi = OutOfFuel.
Proof.
  intros Hinv Hn Hlt.
  induction fuel as [| fuel IH]; intros lo Hlh; [reflexivity |].
  cbn [searchTolerance].
  pose proof (midpoint_bounds lo hi ltac:(lia)) as Hmid.
  pose proof (midpoint_below lo hi Hlh) as Hbelow.
  destruct (pruneSize_antitone this ((lo + hi) ÷ 2) (hi - 1) Hinv)
    as (n1 & b & E1 & Eb & L1); [lia |].
  rewrite Hn in Eb. injection Eb as <-.
  rewrite E1. cbn [bind].
  replace (n1 <=? numLeaves) with false by (symmetry; apply Z.leb_gt; lia).
  apply IH. lia.
Qed.

(** C3 (every operation finishes): the tolerance search does not.  On the
    one-leaf tree built from a 1 x 1 image, idealPrune(1) never returns:
    pruneSize is 1 for every tolerance, so the test
    [pruneSize(tryTolerance - 1) > numLeaves] that ends the search never
    succeeds, and [searchTolerance] calls itself for ever (here: runs out
    of every budget). *)
Theorem idealPrune_diverges_on_one_leaf :
  exists this,
    buildTree 1 Quadtree_empty image1 1 = Ok this /\
    forall fuel, idealPrune fuel this 1 = OutOfFuel.
Proof.
  exists tree1. split; [vm_compute; reflexivity |].
  intros fuel. unfold idealPrune.
  change (isNULL (root tree1)) with false. cbv iota.
  apply (searchTolerance_diverges_low tree1 1 1).
  - vm_compute; reflexivity.
  - vm_compute; reflexivity.
  - lia.
  - unfold MIN_TOLERANCE, MAX_TOLERANCE. lia.
Qed.

(** C2 (idealPrune returns the minimum tolerance): it does not whenever the
    target is at least the number of leaves of the tree.  On the tree built
    from the 2 x 2 image [image2] (four leaves), the minimum tolerance for
    numLeaves = 4 is 0, since pruneSize(0) = 4, but idealPrune(4) never
    returns it: no budget is enough. *)
Theorem idealPrune_never_returns_minimum :
  exists this,
    buildTree 2 Quadtree_empty image2 2 = Ok this /\
    pruneSize this 0 = Ok 4 /\
    forall fuel, idealPrune fuel this 4 = OutOfFuel.
Proof.
  exists tree2. split; [vm_compute; reflexivity |].
  split; [vm_compute; reflexivity |].
  intros fuel. unfold idealPrune.
  change (isNULL (root tree2)) with false. cbv iota.
  apply (searchTolerance_diverges_low tree2 4 4).
  - vm_compute; reflexivity.
  - vm_compute; reflexivity.
  - lia.
  - unfold MIN_TOLERANCE, MAX_TOLERANCE. lia.
Qed.

(** The same search also never returns when the minimum tolerance is
    [MAX_TOLERANCE] itself.  The root of the tree built from [image32] is
    black and one of its leaves is white, so only tolerance 195075 prunes
    the root; idealPrune(1) probes below it for ever. *)
Lemma idealPrune_diverges_at_MAX_TOLERANCE :
  exists this,
    buildTree 6 Quadtree_empty image32 32 = Ok this /\
    pruneSize this MAX_TOLERANCE = Ok 1 /\
    pruneSize this (MAX_TOLERANCE - 1) = Ok 4 /\
    forall fuel, idealPrune fuel this 1 = OutOfFuel.
Proof.
  exists tree32. split; [vm_compute; reflexivity |].
  split; [vm_compute; reflexivity |].
  split; [vm_compute; reflexivity |].
  intros fuel. unfold idealPrune.
  change (isNULL (root tree32)) with false. cbv iota.
  apply (searchTolerance_diverges_high tree32 1 MAX_TOLERANCE 4).
  - vm_compute; reflexivity.
  - vm_compute; reflexivity.
  - lia.
  - unfold MIN_TOLERANCE, MAX_TOLERANCE. lia.
Qed.

(** ** What the tolerance search does away from its two boundary cases *)

Lemma pruneSize_total this t :
  invariant this -> exists n, pruneSize this t = Ok n.
Proof.
  intros Hinv.
  destruct (pruneSize_antitone this t t Hinv (Z.le_refl t)) as (n & _ & H & _).
  exists n. exact H.
Qed.

Lemma midpoint_halves lo hi w :
  0 <= lo <= hi -> hi - lo <= 2 * w ->
  (lo + hi) ÷ 2 - lo <= w /\ hi - (lo + hi) ÷ 2 <= w.
Proof.
  intros H Hw. rewrite Z.quot_div_nonneg by lia.
  pose proof (Z.div_mod (lo + hi) 2 ltac:(lia)) as Hdm.
  pose proof (Z.mod_pos_bound (lo + hi) 2 ltac:(lia)) as Hmod.
  lia.
Qed.

(** A value returned by the search lies in the interval searched and passes
    both tests of the source: it leaves at most [numLeaves] leaves, and the
    tolerance just below it leaves more. *)
Lemma searchTolerance_sound this numLeaves :
  forall fuel lo hi t,
    0 <= lo <= hi ->
    searchTolerance fuel this numLeaves lo hi = Ok t ->
    lo <= t <= hi /\
    exists a b, pruneSize this t = Ok a /\ a <= numLeaves /\
                pruneSize this (t - 1) = Ok b /\ numLeaves < b.
Proof.
  induction fuel as [| fuel IH]; intros lo hi t Hlh H; [discriminate |].
  cbn [searchTolerance] in H.
  pose proof (midpoint_bounds lo hi Hlh) as Hmid.
  bind_inv H. rename a into n1, Ha into E1.
  destruct (Z.leb_spec n1 numLeaves) as [L1 | L1].
  - bind_inv H. rename a into n2, Ha into E2.
    destruct (Z.ltb_spec numLeaves n2) as [L2 | L2].
    + injection H as <-. split; [lia |]. exists n1, n2. auto.
    + destruct (IH lo ((lo + hi) ÷ 2) t ltac:(lia) H) as [Hr Hex].
      split; [lia | exact Hex].
  - destruct (IH ((lo + hi) ÷ 2) hi t ltac:(lia) H) as [Hr Hex].
    split; [lia | exact Hex].
Qed.

(** The search finishes within [f + 1] calls on an interval of length at
    most 2^f, provided the answer is inside: the unpruned tree has more
    than [numLeaves] leaves, the lower end is 0 or still too small, and the
    tolerance just below the upper end is already large enough. *)
Lemma searchTolerance_returns this numLeaves leaves :
  invariant this ->
  pruneSize this (-1) = Ok leaves -> numLeaves < leaves ->
  forall (fuel f : nat) (lo hi : Z),
    (f < fuel)%nat -> 0 <= lo < hi -> hi - lo <= 2 ^ Z.of_nat f ->
    (lo = 0 \/ exists a, pruneSize this lo = Ok a /\ numLeaves < a) ->
    (exists b, pruneSize this (hi - 1) = Ok b /\ b <= numLeaves) ->
    exists t, searchTolerance fuel this numLeaves lo hi = Ok t.
Proof.
  intros Hinv Hleaves Hlt.
  induction fuel as [| fuel IH]; intros f lo hi Hf Hlh Hsize Hlo Hhi; [lia |].
  cbn [searchTolerance].
  pose proof (midpoint_bounds lo hi ltac:(lia)) as Hmid.
  pose proof (midpoint_below lo hi Hlh) as Hbelow.
  destruct (pruneSize_total this ((lo + hi) ÷ 2) Hinv) as [n1 E1].
  destruct (pruneSize_total this ((lo + hi) ÷ 2 - 1) Hinv) as [n2 E2].
  rewrite E1. cbn [bind].
  destruct (Z.leb_spec n1 numLeaves) as [L1 | L1].
  - rewrite E2. cbn [bind].
    destruct (Z.ltb_spec numLeaves n2) as [L2 | L2]; [eexists; reflexivity |].
    assert (Hlt_try : lo < (lo + hi) ÷ 2).
    { destruct (Z.eq_dec ((lo + hi) ÷ 2) lo) as [Heq | Hne]; [| lia].
      exfalso. rewrite Heq in E1, E2.
      destruct Hlo as [-> | (a & Ea & La)].
      - change (0 - 1) with (-1) in E2. rewrite Hleaves in E2.
        injection E2 as <-. lia.
      - rewrite Ea in E1. injection E1 as <-. lia. }
    destruct f as [| f]; [change (2 ^ Z.of_nat 0) with 1 in Hsize; lia |].
    rewrite pow2_succ in Hsize.
    destruct (midpoint_halves lo hi (2 ^ Z.of_nat f) ltac:(lia) Hsize) as [Hl _].
    apply (IH f); try lia; try assumption.
    exists n2. auto.
  - assert (Hgap : (lo + hi) ÷ 2 < hi - 1).
    { destruct (Z.eq_dec ((lo + hi) ÷ 2) (hi - 1)) as [Heq | Hne]; [| lia].
      exfalso. rewrite Heq in E1. destruct Hhi as (b & Eb & Lb).
      rewrite Eb in E1. injection E1 as <-. lia. }
    destruct f as [| f]; [change (2 ^ Z.of_nat 0) with 1 in Hsize; lia |].
    rewrite pow2_succ in Hsize.
    destruct (midpoint_halves lo hi (2 ^ Z.of_nat f) ltac:(lia) Hsize) as [_ Hh].
    apply (IH f); try lia; try assumption.
    right. exists n1. auto.
Qed.

(** Away from the two boundary cases idealPrune does what its header says.
    On a non-empty tree that satisfies the invariant, if the unpruned tree
    has more than [numLeaves] leaves and tolerance [MAX_TOLERANCE - 1]
    already leaves at most [numLeaves], then 19 calls are enough, and the
    value returned is the minimum tolerance that leaves at most
    [numLeaves] leaves. *)
Lemma idealPrune_minimum_inside this numLeaves leaves b :
  invariant this -> isNULL (root this) = false ->
  pruneSize this (-1) = Ok leaves -> numLeaves < leaves ->
  pruneSize this (MAX_TOLERANCE - 1) = Ok b -> b <= numLeaves ->
  forall fuel, (18 < fuel)%nat ->
    exists t a,
      idealPrune fuel this numLeaves = Ok t /\
      MIN_TOLERANCE <= t < MAX_TOLERANCE /\
      pruneSize this t = Ok a /\ a <= numLeaves /\
      forall t' a', pruneSize this t' = Ok a' -> a' <= numLeaves -> t <= t'.
Proof.
  intros Hinv Hnn Hleaves Hlt Hb Hble fuel Hfuel.
  unfold idealPrune. rewrite Hnn.
  destruct (searchTolerance_returns this numLeaves leaves Hinv Hleaves Hlt
              fuel 18%nat MIN_TOLERANCE MAX_TOLERANCE) as [t Ht].
  - exact Hfuel.
  - unfold MIN_TOLERANCE, MAX_TOLERANCE. lia.
  - vm_compute. discriminate.
  - left. reflexivity.
  - exists b. auto.
  - destruct (searchTolerance_sound this numLeaves fuel
                MIN_TOLERANCE MAX_TOLERANCE t) as (Hr & a & c & Ea & La & Ec & Lc).
    + unfold MIN_TOLERANCE, MAX_TOLERANCE. lia.
    + exact Ht.
    + exists t, a. split; [exact Ht |].
      assert (Hne : t <> MAX_TOLERANCE).
      { intros ->. rewrite Hb in Ec. injection Ec as <-. lia. }
      split; [lia |]. split; [exact Ea |]. split; [exact La |].
      intros t' a' Ea' La'.
      destruct (Z.le_gt_cases t t') as [Hle | Hgt]; [exact Hle | exfalso].
      destruct (pruneSize_antitone this t' (t - 1) Hinv ltac:(lia))
        as (x1 & x2 & X1 & X2 & HX).
      rewrite Ea' in X1. rewrite Ec in X2.
      injection X1 as <-. injection X2 as <-. lia.
Qed.

(** * The theorems at concrete inputs *)

Lemma tree4_reachable : reachable tree4.
Proof.
  apply (reach_buildTree 3 Quadtree_empty image4 4 tree4 reach_default).
  vm_compute; reflexivity.
Defined.

Lemma tree4_rotated_reachable : reachable tree4_rotated.
Proof.
  apply (reach_clockwiseRotate tree4_pruned tree4_rotated).
  - apply (reach_prune tree4 30 tree4_pruned tree4_reachable).
    vm_compute; reflexivity.
  - vm_compute; reflexivity.
Defined.

Lemma tree4_invariant : invariant tree4.
Proof. vm_compute; reflexivity. Defined.

Lemma reachable_zero_or_four_children_witness :
  reachable tree4_rotated /\ zeroOrFour (root tree4_rotated) = true.
Proof.
  split.
  - exact tree4_rotated_reachable.
  - apply (reachable_zero_or_four_children tree4_rotated).
    exact tree4_rotated_reachable.
Defined.

Lemma fallbacks_are_defined_witness :
  (res tree4 <= 7 /\ getPixel white tree4 7 0 = Ok white) /\
  (root Quadtree_empty = NULL /\
   decompress white Quadtree_empty = Ok (PNG_default white) /\
   pruneSize Quadtree_empty 5 = Ok 0 /\
   idealPrune 0 Quadtree_empty 3 = Ok MIN_TOLERANCE).
Proof.
  assert (H7 : res tree4 <= 7) by (vm_compute; discriminate).
  split.
  - split; [exact H7 |].
    apply (proj1 (fallbacks_are_defined white tree4 7 0 0 1 0%nat)).
    right; right; left. exact H7.
  - split; [reflexivity |].
    apply (proj2 (fallbacks_are_defined white Quadtree_empty 0 0 5 3 0%nat)).
    reflexivity.
Defined.

Lemma four_rotations_restore_getPixel_witness :
  invariant tree4 /\
  exists this4 c,
    clockwiseRotate_times 4 tree4 = Ok this4 /\
    getPixel white tree4 2 0 = Ok c /\
    getPixel white this4 2 0 = Ok c.
Proof.
  split.
  - exact tree4_invariant.
  - apply (four_rotations_restore_getPixel white tree4 2 0).
    exact tree4_invariant.
Defined.

Lemma pruneSize_monotone_witness :
  invariant tree4 /\ 0 <= 30 /\
  exists n1 n2,
    pruneSize tree4 0 = Ok n1 /\ pruneSize tree4 30 = Ok n2 /\ n1 >= n2.
Proof.
  split; [exact tree4_invariant |]. split; [lia |].
  apply (pruneSize_monotone tree4 0 30); [exact tree4_invariant | lia].
Defined.

Lemma prune_agrees_with_pruneSize_witness :
  invariant tree4 /\
  exists this',
    prune tree4 30 = Ok this' /\
    pruneSize tree4 30 = Ok (countLeaves (root this')) /\
    root this' = collapseMarked (markPrunable 30 (root tree4)) /\
    res this' = res tree4.
Proof.
  split; [exact tree4_invariant |].
  apply (prune_agrees_with_pruneSize tree4 30). exact tree4_invariant.
Defined.

Lemma image4_containsBlock : containsBlock image4 (2 ^ Z.of_nat 2).
Proof. split; vm_compute; discriminate. Defined.

Lemma buildTree_decompress_roundtrip_witness :
  (2 < 3)%nat /\ containsBlock image4 (2 ^ Z.of_nat 2) /\
  exists this' img,
    buildTree 3 Quadtree_empty image4 (2 ^ Z.of_nat 2) = Ok this' /\
    decompress white this' = Ok img /\
    width img = 2 ^ Z.of_nat 2 /\ height img = 2 ^ Z.of_nat 2 /\
    forall x y, 0 <= x < 2 ^ Z.of_nat 2 -> 0 <= y < 2 ^ Z.of_nat 2 ->
      exists c, pixelAt image4 x y = Ok c /\ pixelAt img x y = Ok c.
Proof.
  split; [lia |]. split; [exact image4_containsBlock |].
  apply (buildTree_decompress_roundtrip white 2 3 Quadtree_empty image4).
  - lia.
  - exact image4_containsBlock.
Defined.

Lemma image4_in_8_agrees :
  forall x y, 0 <= x < 2 ^ Z.of_nat 2 -> 0 <= y < 2 ^ Z.of_nat 2 ->
    pixels image4 x y = pixels image4_in_8 x y.
Proof.
  intros x y Hx Hy. change (2 ^ Z.of_nat 2) with 4 in Hx, Hy.
  unfold image4, rampImage, image4_in_8. cbn [pixels].
  destruct (Z.ltb_spec x 4); [| lia].
  destruct (Z.ltb_spec y 4); [| lia].
  reflexivity.
Defined.

Lemma buildTree_reads_only_block_witness :
  (2 < 3)%nat /\
  containsBlock image4 (2 ^ Z.of_nat 2) /\
  containsBlock image4_in_8 (2 ^ Z.of_nat 2) /\
  (forall x y, 0 <= x < 2 ^ Z.of_nat 2 -> 0 <= y < 2 ^ Z.of_nat 2 ->
     pixels image4 x y = pixels image4_in_8 x y) /\
  exists this',
    buildTree 3 Quadtree_empty image4 (2 ^ Z.of_nat 2) = Ok this' /\
    buildTree 3 tree1 image4_in_8 (2 ^ Z.of_nat 2) = Ok this'.
Proof.
  assert (C8 : containsBlock image4_in_8 (2 ^ Z.of_nat 2))
    by (split; vm_compute; discriminate).
  split; [lia |]. split; [exact image4_containsBlock |].
  split; [exact C8 |]. split; [exact image4_in_8_agrees |].
  apply (buildTree_reads_only_block 2 3 Quadtree_empty tree1
           image4 image4_in_8).
  - lia.
  - exact image4_containsBlock.
  - exact C8.
  - exact image4_in_8_agrees.
Defined.

(** * Further properties of the code *)

(** ** Copying *)

(** Copy construction and assignment from another object give an object
    equal to that one, root and resolution, whatever the target held. *)
Theorem copy_equals_source :
  forall (this other : Quadtree) (res0 : Z),
    operator_assign this other = other /\ Quadtree_of_copy res0 other = other.
Proof.
  intros this other res0. unfold operator_assign, Quadtree_of_copy, copyQuadtree.
  rewrite !deleteQuadtree_root, copyQuadtree_node_clone.
  destruct other; split; reflexivity.
Qed.

(** Assigning a tree to itself leaves it without root: the root is deleted
    before it is read as the source of the copy.  getPixel then returns the
    default pixel everywhere and pruneSize returns 0. *)
Theorem self_assignment_empties_the_tree (d : RGBAPixel) :
  forall (this : Quadtree) (x y tolerance : Z),
    copyQuadtree_self this = mkQuadtree NULL (res this) /\
    getPixel d (copyQuadtree_self this) x y = Ok d /\
    pruneSize (copyQuadtree_self this) tolerance = Ok 0.
Proof.
  intros this x y tolerance.
  assert (E : copyQuadtree_self this = mkQuadtree NULL (res this)).
  { unfold copyQuadtree_self. cbv zeta. rewrite deleteQuadtree_root.
    cbn [copyQuadtree_node]. f_equal.
    unfold deleteQuadtree. destruct (isNULL (root this)); reflexivity. }
  rewrite E. split; [reflexivity |]. split.
  - unfold getPixel. cbn [root isNULL]. rewrite orb_true_r. reflexivity.
  - reflexivity.
Qed.

(** ** Averages *)

Lemma to_int_range (b : uint8_t) : 0 <= to_int b <= 255.
Proof.
  unfold to_int. pose proof (Byte.to_N_bounded b) as H. lia.
Qed.

Lemma to_int_to_uint8 (z : Z) : 0 <= z <= 255 -> to_int (to_uint8 z) = z.
Proof.
  intros Hz. unfold to_int, to_uint8. rewrite Z.mod_small by lia.
  destruct (Byte.of_N (Z.to_N z)) as [b |] eqn:E.
  - apply Byte.to_of_N in E. rewrite E. lia.
  - apply Byte.of_N_None_iff in E. lia.
Qed.

(** [getAvg] loses nothing in the conversion back to [uint8_t]: the result
    is the truncated mean of the four channels, and it lies between the
    least and the greatest of them. *)
Theorem getAvg_is_truncated_mean :
  forall n1 n2 n3 n4 : uint8_t,
    to_int (getAvg n1 n2 n3 n4)
    = (to_int n1 + to_int n2 + to_int n3 + to_int n4) / 4 /\
    Z.min (Z.min (to_int n1) (to_int n2)) (Z.min (to_int n3) (to_int n4))
    <= to_int (getAvg n1 n2 n3 n4)
    <= Z.max (Z.max (to_int n1) (to_int n2)) (Z.max (to_int n3) (to_int n4)).
Proof.
  intros n1 n2 n3 n4.
  pose proof (to_int_range n1). pose proof (to_int_range n2).
  pose proof (to_int_range n3). pose proof (to_int_range n4).
  unfold getAvg. rewrite Z.quot_div_nonneg by lia.
  pose proof (Z.div_mod (to_int n1 + to_int n2 + to_int n3 + to_int n4) 4
                ltac:(lia)) as Hdm.
  pose proof (Z.mod_pos_bound (to_int n1 + to_int n2 + to_int n3 + to_int n4) 4
                ltac:(lia)) as Hmod.
  rewrite to_int_to_uint8 by lia.
  split; [reflexivity | lia].
Qed.











(** ** Pruning at the ends of the tolerance range *)

Lemma colorDistance_nonneg a b : 0 <= colorDistance a b.
Proof.
  unfold colorDistance. rewrite !Z.pow_2_r.
  pose proof (Z.square_nonneg (to_int (red b) - to_int (red a))).
  pose proof (Z.square_nonneg (to_int (green b) - to_int (green a))).
  pose proof (Z.square_nonneg (to_int (blue b) - to_int (blue a))).
  lia.
Qed.

Lemma square_diff_bound x y :
  0 <= x <= 255 -> 0 <= y <= 255 -> (y - x) * (y - x) <= 255 * 255.
Proof. intros Hx Hy. nia. Qed.

Lemma colorDistance_le_MAX a b : colorDistance a b <= MAX_TOLERANCE.
Proof.
  unfold colorDistance, MAX_TOLERANCE. rewrite !Z.pow_2_r.
  pose proof (square_diff_bound _ _ (to_int_range (red a)) (to_int_range (red b))).
  pose proof (square_diff_bound _ _ (to_int_range (green a))
                (to_int_range (green b))).
  pose proof (square_diff_bound _ _ (to_int_range (blue a))
                (to_int_range (blue b))).
  lia.
Qed.

Lemma allWithin_MAX tolerance avg node :
  MAX_TOLERANCE <= tolerance -> allWithin tolerance avg node = true.
Proof.
  intros Hle. unfold allWithin. apply forallb_forall. intros c _.
  apply Z.leb_le. pose proof (colorDistance_le_MAX avg c). lia.
Qed.

Lemma allWithin_negative tolerance avg :
  tolerance < 0 ->
  forall node, zeroOrFour node = true -> isNULL node = false ->
    allWithin tolerance avg node = false.
Proof.
  intros Hneg.
  apply (invariant_node_ind
    (fun node => allWithin tolerance avg node = false)).
  - intros el. unfold allWithin. cbn [leafColors numChildren filter isNULL negb
      length Nat.eqb forallb].
    pose proof (colorDistance_nonneg avg el).
    replace (colorDistance avg el <=? tolerance) with false
      by (symmetry; apply Z.leb_gt; lia).
    reflexivity.
  - intros nw ne sw se el Nnw _ _ _ _ _ _ _ IHnw _ _ _.
    unfold allWithin in *. rewrite leafColors_internal by assumption.
    rewrite forallb_app, IHnw. reflexivity.
Qed.

Lemma prune_node_negative tolerance :
  tolerance < 0 ->
  forall node, zeroOrFour node = true -> isNULL node = false ->
    prune_node tolerance node = Ok node /\
    pruneSize_node tolerance node = Ok (countLeaves node).
Proof.
  intros Hneg.
  apply (invariant_node_ind
    (fun node => prune_node tolerance node = Ok node /\
                 pruneSize_node tolerance node = Ok (countLeaves node))).
  - intros el. split; reflexivity.
  - intros nw ne sw se el Nnw Nne Nsw Nse Inw Ine Isw Ise
      [Pnw Snw] [Pne Sne] [Psw Ssw] [Pse Sse].
    assert (Inode : zeroOrFour (Node nw ne sw se el) = true)
      by (apply zeroOrFour_internal; assumption).
    cbn [prune_node pruneSize_node]. rewrite Nnw.
    rewrite !(isChildrenPrunable_allWithin _ (Node nw ne sw se el) el eq_refl
               _ Inode eq_refl).
    rewrite (allWithin_negative tolerance el Hneg _ Inode eq_refl).
    cbn [bind]. rewrite Pnw, Pne, Psw, Pse, Snw, Sne, Ssw, Sse. cbn [bind].
    rewrite countLeaves_internal by assumption. split; reflexivity.
Qed.

(** With a negative tolerance nothing is prunable (a colour distance is
    never negative): prune leaves the tree exactly as it is, and pruneSize
    is the number of leaves of the tree. *)
Theorem negative_tolerance_prunes_nothing :
  forall (this : Quadtree) (tolerance : Z),
    invariant this -> tolerance < 0 ->
    prune this tolerance = Ok this /\
    pruneSize this tolerance = Ok (countLeaves (root this)).
Proof.
  intros this tolerance Hinv Hneg. unfold prune, pruneSize.
  destruct (isNULL (root this)) eqn:E; cbn [negb].
  - apply isNULL_true in E. rewrite E. split; reflexivity.
  - destruct (prune_node_negative tolerance Hneg _ Hinv E) as [P S].
    rewrite P, S. cbn [bind]. destruct this; split; reflexivity.
Qed.

Lemma negative_tolerance_prunes_nothing_witness :
  invariant tree4 /\ -1 < 0 /\
  prune tree4 (-1) = Ok tree4 /\
  pruneSize tree4 (-1) = Ok (countLeaves (root tree4)).
Proof.
  split; [exact tree4_invariant |]. split; [lia |].
  apply (negative_tolerance_prunes_nothing tree4 (-1));
    [exact tree4_invariant | lia].
Defined.

(** With tolerance [MAX_TOLERANCE] or more every non-empty tree collapses
    to its root: no two colours are further apart than 3 * 255^2, so prune
    leaves a single leaf that holds the root's colour, and pruneSize is 1. *)
Theorem max_tolerance_prunes_to_the_root :
  forall (this : Quadtree) (tolerance : Z) (el : RGBAPixel),
    invariant this -> elementOf (root this) = Ok el ->
    MAX_TOLERANCE <= tolerance ->
    prune this tolerance = Ok (mkQuadtree (QuadtreeNode_new el) (res this)) /\
    pruneSize this tolerance = Ok 1.
Proof.
  intros [r s] tolerance el Hinv Hel Hmax. unfold invariant in Hinv.
  cbn [root res] in *. unfold prune, pruneSize. cbn [root res].
  destruct r as [| nw ne sw se el']; [discriminate |].
  injection Hel as ->. cbn [isNULL negb].
  pose proof Hinv as Hshape. apply zeroOrFour_Node in Hshape.
  destruct Hshape as [_ [(-> & -> & -> & ->) | (Nnw & _)]].
  - split; reflexivity.
  - cbn [prune_node pruneSize_node]. rewrite Nnw.
    rewrite !(isChildrenPrunable_allWithin _ (Node nw ne sw se el) el eq_refl
               _ Hinv eq_refl).
    rewrite allWithin_MAX by assumption. cbn [bind pruneChildren].
    rewrite !deleteQuadtree_node_NULL. split; reflexivity.
Qed.

Lemma max_tolerance_prunes_to_the_root_witness :
  invariant tree4 /\ elementOf (root tree4) = Ok (grey 7) /\
  MAX_TOLERANCE <= MAX_TOLERANCE /\
  prune tree4 MAX_TOLERANCE
  = Ok (mkQuadtree (QuadtreeNode_new (grey 7)) (res tree4)) /\
  pruneSize tree4 MAX_TOLERANCE = Ok 1.
Proof.
  assert (E : elementOf (root tree4) = Ok (grey 7)) by (vm_compute; reflexivity).
  split; [exact tree4_invariant |]. split; [exact E |]. split; [lia |].
  apply (max_tolerance_prunes_to_the_root tree4 MAX_TOLERANCE (grey 7));
    [exact tree4_invariant | exact E | lia].
Defined.

Lemma countLeaves_collapseMarked tolerance :
  forall node, zeroOrFour node = true -> isNULL node = false ->
    1 <= countLeaves (collapseMarked (markPrunable tolerance node))
      <= countLeaves node.
Proof.
  apply (invariant_node_ind
    (fun node =>
       1 <= countLeaves (collapseMarked (markPrunable tolerance node))
         <= countLeaves node)).
  - intros el. cbn. lia.
  - intros nw ne sw se el Nnw Nne Nsw Nse _ _ _ _ IHnw IHne IHsw IHse.
    rewrite collapseMarked_internal by assumption.
    rewrite (countLeaves_internal nw ne sw se el) by assumption.
    destruct (allWithin tolerance el (Node nw ne sw se el)).
    + cbn. lia.
    + rewrite countLeaves_internal
        by (apply collapseMarked_not_NULL; assumption).
      lia.
Qed.

(** Pruning never adds leaves: on a tree that satisfies the invariant
    prune finishes with a tree that has at most as many leaves as before,
    the same resolution, and, unless the tree was empty, at least one
    leaf. *)
Theorem prune_never_adds_leaves :
  forall (this : Quadtree) (tolerance : Z),
    invariant this ->
    exists this',
      prune this tolerance = Ok this' /\
      res this' = res this /\
      countLeaves (root this') <= countLeaves (root this) /\
      (isNULL (root this) = false -> 1 <= countLeaves (root this')).
Proof.
  intros this tolerance Hinv. unfold prune.
  destruct (isNULL (root this)) eqn:E; cbn [negb].
  - exists this. repeat split; try lia; try discriminate.
  - destruct (prune_node_two_pass tolerance _ Hinv E) as [P _].
    rewrite P. cbn [bind]. eexists. split; [reflexivity |].
    cbn [root res].
    pose proof (countLeaves_collapseMarked tolerance _ Hinv E).
    repeat split; try lia.
Qed.

Lemma prune_never_adds_leaves_witness :
  invariant tree4 /\
  exists this',
    prune tree4 30 = Ok this' /\
    res this' = res tree4 /\
    countLeaves (root this') <= countLeaves (root tree4) /\
    (isNULL (root tree4) = false -> 1 <= countLeaves (root this')).
Proof.
  split; [exact tree4_invariant |].
  apply (prune_never_adds_leaves tree4 30). exact tree4_invariant.
Defined.

(** ** The tolerance search, inside and outside its range *)

Lemma idealPrune_minimum_inside_witness :
  invariant tree2 /\ isNULL (root tree2) = false /\
  pruneSize tree2 (-1) = Ok 4 /\ 1 < 4 /\
  pruneSize tree2 (MAX_TOLERANCE - 1) = Ok 1 /\ 1 <= 1 /\ (18 < 19)%nat /\
  exists t a,
    idealPrune 19 tree2 1 = Ok t /\
    MIN_TOLERANCE <= t < MAX_TOLERANCE /\
    pruneSize tree2 t = Ok a /\ a <= 1 /\
    forall t' a', pruneSize tree2 t' = Ok a' -> a' <= 1 -> t <= t'.
Proof.
  assert (I : invariant tree2) by (vm_compute; reflexivity).
  assert (L : pruneSize tree2 (-1) = Ok 4) by (vm_compute; reflexivity).
  assert (B : pruneSize tree2 (MAX_TOLERANCE - 1) = Ok 1)
    by (vm_compute; reflexivity).
  split; [exact I |]. split; [reflexivity |]. split; [exact L |].
  split; [lia |]. split; [exact B |]. split; [lia |]. split; [lia |].
  apply (idealPrune_minimum_inside tree2 1 4 1 I eq_refl L ltac:(lia) B
           ltac:(lia) 19%nat).
  lia.
Defined.

(** idealPrune never returns on a non-empty tree when the target is at
    least the number of leaves of the tree, nor when tolerance
    [MAX_TOLERANCE - 1] still leaves more than [numLeaves] leaves: for every
    recursion budget the search is still running when the budget ends. *)
Theorem idealPrune_diverges_outside :
  forall (this : Quadtree) (numLeaves : Z),
    invariant this -> isNULL (root this) = false ->
    (countLeaves (root this) <= numLeaves \/
     exists n, pruneSize this (MAX_TOLERANCE - 1) = Ok n /\ numLeaves < n) ->
    forall fuel, idealPrune fuel this numLeaves = OutOfFuel.
Proof.
  intros this numLeaves Hinv Hnn Hcase fuel. unfold idealPrune. rewrite Hnn.
  destruct Hcase as [Hlow | (n & Hn & Hlt)].
  - assert (Hsize : pruneSize this (-1) = Ok (countLeaves (root this))).
    { unfold pruneSize. rewrite Hnn.
      apply (prune_node_negative (-1) ltac:(lia) _ Hinv Hnn). }
    apply (searchTolerance_diverges_low this numLeaves _ Hinv Hsize Hlow).
    unfold MIN_TOLERANCE, MAX_TOLERANCE. lia.
  - apply (searchTolerance_diverges_high this numLeaves MAX_TOLERANCE n
             Hinv Hn Hlt).
    unfold MIN_TOLERANCE, MAX_TOLERANCE. lia.
Qed.

Lemma idealPrune_diverges_outside_witness :
  invariant tree4 /\ isNULL (root tree4) = false /\
  (countLeaves (root tree4) <= 16 \/
   exists n, pruneSize tree4 (MAX_TOLERANCE - 1) = Ok n /\ 16 < n) /\
  forall fuel, idealPrune fuel tree4 16 = OutOfFuel.
Proof.
  assert (C : countLeaves (root tree4) <= 16) by (vm_compute; discriminate).
  split; [exact tree4_invariant |]. split; [reflexivity |].
  split; [left; exact C |].
  apply (idealPrune_diverges_outside tree4 16 tree4_invariant eq_refl).
  left. exact C.
Defined.

(** ** What getPixel returns on an unpruned tree *)

Lemma snapCoord_band (k : nat) (x : Z) :
  2 ^ Z.of_nat k <= x < 2 ^ Z.of_nat (S k) ->
  snapCoord x = 2 ^ Z.of_nat (S k) - 1.
Proof.
  intros Hx. unfold snapCoord.
  rewrite (Z.log2_up_unique (x + 1) (Z.of_nat (S k))); [reflexivity | lia |].
  rewrite Nat2Z.inj_succ, Z.pred_succ.
  rewrite Nat2Z.inj_succ in Hx. lia.
Qed.

Lemma leafCoord_0 x : 0 <= x -> leafCoord 0 x = 0.
Proof.
  intros Hx. unfold leafCoord. change (2 ^ Z.of_nat 0) with 1.
  destruct (Z.ltb_spec x 1); [| reflexivity].
  assert (x = 0) as -> by lia. reflexivity.
Qed.

Lemma leafCoord_west k x :
  x < 2 ^ Z.of_nat k -> leafCoord (S k) x = leafCoord k x.
Proof.
  intros Hx. unfold leafCoord. pose proof (pow2_succ k) as Hs.
  pose proof (pow2_pos k).
  destruct (Z.ltb_spec x (2 ^ Z.of_nat (S k))); [| lia].
  destruct (Z.ltb_spec x (2 ^ Z.of_nat k)); [reflexivity | lia].
Qed.

Lemma leafCoord_east k x :
  2 ^ Z.of_nat k <= x ->
  leafCoord (S k) x = 2 ^ Z.of_nat k + leafCoord k x.
Proof.
  intros Hx. unfold leafCoord. pose proof (pow2_succ k) as Hs.
  destruct (Z.ltb_spec x (2 ^ Z.of_nat k)); [lia |].
  destruct (Z.ltb_spec x (2 ^ Z.of_nat (S k))).
  - rewrite (snapCoord_band k x) by lia. lia.
  - lia.
Qed.

(** On the subtree built for the block of side 2^k at (x0, y0), the
    descent ends in the leaf of the pixel (x0 + leafCoord k x,
    y0 + leafCoord k y): once a coordinate has sent the descent east (or
    south), it does so at every level below, because it is compared
    unchanged with ever smaller midpoints. *)
Lemma getPixel_node_built source :
  forall (fuel k : nat) (x0 y0 : Z) (node : QuadtreeNode),
    buildTree_node fuel source (2 ^ Z.of_nat k) x0 y0 = Ok node ->
    forall x y, 0 <= x -> 0 <= y ->
      getPixel_node x y node (2 ^ Z.of_nat k)
      = Ok (pixels source (x0 + leafCoord k x) (y0 + leafCoord k y)).
Proof.
  induction fuel as [| fuel IH]; intros k x0 y0 node Hb x y Hx Hy;
    [discriminate |].
  cbn [buildTree_node] in Hb. destruct k as [| k].
  - change (2 ^ Z.of_nat 0) with 1 in *. cbn [Z.eqb] in Hb. cbv iota in Hb.
    bind_inv Hb. injection Hb as <-.
    unfold pixelAt in Ha. destruct (inImage source x0 y0); [| discriminate].
    injection Ha as <-.
    rewrite !leafCoord_0, !Z.add_0_r by assumption. reflexivity.
  - rewrite pow2_succ_not_1, pow2_succ_half in Hb.
    bind_inv Hb. rename a into nw, Ha into Hnw.
    bind_inv Hb. rename a into ne, Ha into Hne.
    bind_inv Hb. rename a into sw, Ha into Hsw.
    bind_inv Hb. rename a into se, Ha into Hse.
    bind_inv Hb. injection Hb as <-.
    cbn [getPixel_node].
    rewrite (proj2 (buildTree_node_invariant _ _ _ _ _ _ Hnw)).
    rewrite pow2_succ_half.
    destruct (Z.ltb_spec x (2 ^ Z.of_nat k)) as [Lx | Gx];
      destruct (Z.ltb_spec y (2 ^ Z.of_nat k)) as [Ly | Gy];
      cbn [andb].
    + rewrite (IH _ _ _ _ Hnw) by assumption.
      rewrite !leafCoord_west by assumption. reflexivity.
    + replace (2 ^ Z.of_nat k <=? y) with true
        by (symmetry; apply Z.leb_le; lia).
      rewrite (IH _ _ _ _ Hsw) by assumption.
      rewrite (leafCoord_west k x), (leafCoord_east k y) by assumption.
      rewrite Z.add_assoc. reflexivity.
    + replace (2 ^ Z.of_nat k <=? x) with true
        by (symmetry; apply Z.leb_le; lia).
      cbn [andb].
      rewrite (IH _ _ _ _ Hne) by assumption.
      rewrite (leafCoord_east k x), (leafCoord_west k y) by assumption.
      rewrite Z.add_assoc. reflexivity.
    + replace (2 ^ Z.of_nat k <=? y) with true
        by (symmetry; apply Z.leb_le; lia).
      replace (2 ^ Z.of_nat k <=? x) with true
        by (symmetry; apply Z.leb_le; lia).
      cbn [andb].
      rewrite (IH _ _ _ _ Hse) by assumption.
      rewrite !leafCoord_east by assumption.
      rewrite !Z.add_assoc. reflexivity.
Qed.

(** On the tree built at resolution 2^k from a source, with no pruning,
    getPixel(x, y) for in-range (x, y) returns the source pixel at
    (snapCoord x, snapCoord y), each coordinate rounded up to the next
    number of the form 2^m - 1: it returns the pixel at (x, y) itself when
    x + 1 and y + 1 are powers of two, and a pixel further right or further
    down otherwise. *)
Theorem getPixel_on_built_tree (d : RGBAPixel) :
  forall (k fuel : nat) (this0 this : Quadtree) (source : PNG) (x y : Z),
    buildTree fuel this0 source (2 ^ Z.of_nat k) = Ok this ->
    0 <= x < 2 ^ Z.of_nat k -> 0 <= y < 2 ^ Z.of_nat k ->
    getPixel d this x y = Ok (pixels source (snapCoord x) (snapCoord y)) /\
    x <= snapCoord x /\ y <= snapCoord y /\
    (forall m : nat, x = 2 ^ Z.of_nat m - 1 -> snapCoord x = x) /\
    (forall m : nat, y = 2 ^ Z.of_nat m - 1 -> snapCoord y = y).
Proof.
  intros k fuel this0 this source x y Hb Hx Hy.
  assert (Hfix : forall (m : nat) (z : Z),
             z = 2 ^ Z.of_nat m - 1 -> snapCoord z = z).
  { intros m z ->. unfold snapCoord.
    replace (2 ^ Z.of_nat m - 1 + 1) with (2 ^ Z.of_nat m) by lia.
    rewrite Z.log2_up_pow2 by lia. reflexivity. }
  assert (Hle : forall z, 0 <= z -> z <= snapCoord z).
  { intros z Hz. unfold snapCoord.
    destruct (Z.eq_dec z 0) as [-> | Hne]; [vm_compute; discriminate |].
    pose proof (Z.log2_up_spec (z + 1) ltac:(lia)) as [_ Hup]. lia. }
  split; [| repeat split; eauto; apply Hle; lia].
  unfold buildTree in Hb. bind_inv Hb. injection Hb as <-.
  unfold getPixel, outOfBound. cbn [root res].
  rewrite (proj2 (buildTree_node_invariant _ _ _ _ _ _ Ha)).
  replace (x <? 0) with false by (symmetry; apply Z.ltb_ge; lia).
  replace (y <? 0) with false by (symmetry; apply Z.ltb_ge; lia).
  replace (2 ^ Z.of_nat k <=? x) with false by (symmetry; apply Z.leb_gt; lia).
  replace (2 ^ Z.of_nat k <=? y) with false by (symmetry; apply Z.leb_gt; lia).
  cbn [orb].
  rewrite (getPixel_node_built source _ _ _ _ _ Ha) by lia.
  unfold leafCoord.
  replace (x <? 2 ^ Z.of_nat k) with true by (symmetry; apply Z.ltb_lt; lia).
  replace (y <? 2 ^ Z.of_nat k) with true by (symmetry; apply Z.ltb_lt; lia).
  rewrite !Z.add_0_l. reflexivity.
Qed.

Lemma getPixel_on_built_tree_witness :
  buildTree 3 Quadtree_empty image4 (2 ^ Z.of_nat 2) = Ok tree4 /\
  0 <= 2 < 2 ^ Z.of_nat 2 /\ 0 <= 0 < 2 ^ Z.of_nat 2 /\
  getPixel white tree4 2 0
  = Ok (pixels image4 (snapCoord 2) (snapCoord 0)) /\
  2 <= snapCoord 2 /\ 0 <= snapCoord 0 /\
  (forall m : nat, 2 = 2 ^ Z.of_nat m - 1 -> snapCoord 2 = 2) /\
  (forall m : nat, 0 = 2 ^ Z.of_nat m - 1 -> snapCoord 0 = 0).
Proof.
  assert (B : buildTree 3 Quadtree_empty image4 (2 ^ Z.of_nat 2) = Ok tree4)
    by (vm_compute; reflexivity).
  assert (R2 : 0 <= 2 < 2 ^ Z.of_nat 2)
    by (change (2 ^ Z.of_nat 2) with 4; lia).
  assert (R0 : 0 <= 0 < 2 ^ Z.of_nat 2)
    by (change (2 ^ Z.of_nat 2) with 4; lia).
  split; [exact B |]. split; [exact R2 |]. split; [exact R0 |].
  apply (getPixel_on_built_tree white 2 3 Quadtree_empty tree4 image4 2 0 B R2 R0).
Defined.

(** ** decompress on pruned and rotated trees *)

(** The inner loop of [transform] on a leaf writes one column. *)
Lemma fill_column c X y :
  forall (n : nat) (j0 : Z) (img : PNG),
    0 <= X < width img -> 0 <= y + j0 ->
    y + j0 + Z.of_nat n <= height img ->
    exists img',
      for_loop n j0 (fun j im => setPixelAt im X (y + j) c) img = Ok img' /\
      rectFilled c img img' X (y + j0) 1 (Z.of_nat n).
Proof.
  induction n as [| n IH]; intros j0 img HX Hy Hh.
  - exists img. split; [reflexivity |].
    unfold rectFilled. repeat split; try reflexivity. intros u v Hu Hv.
    simpl in Hv. lia.
  - cbn [for_loop]. rewrite setPixelAt_inside by lia. cbn [bind].
    set (img1 := mkPNG (width img) (height img)
                   (fun x' y' => if (x' =? X) && (y' =? y + j0) then c
                                 else pixels img x' y')).
    destruct (IH (j0 + 1) img1) as (img' & Hloop & W & H & I & O);
      try (cbn [img1 width height]; lia).
    exists img'. split; [exact Hloop |].
    unfold rectFilled. cbn [img1 width height pixels] in W, H, O.
    split; [exact W |]. split; [exact H |]. split.
    + intros u v Hu Hv.
      destruct (Z.eq_dec v (y + j0)) as [-> | Hne].
      * rewrite O by lia.
        replace (u =? X) with true by (symmetry; apply Z.eqb_eq; lia).
        rewrite Z.eqb_refl. reflexivity.
      * apply I; lia.
    + intros u v Hn. rewrite O by lia.
      destruct (Z.eqb_spec u X) as [-> |]; [| reflexivity].
      destruct (Z.eqb_spec v (y + j0)) as [-> |]; [| reflexivity].
      exfalso. apply Hn. lia.
Qed.

(** The two nested loops of [transform] on a leaf write a rectangle. *)
Lemma fill_block c x y (n : nat) :
  forall (m : nat) (i0 : Z) (img : PNG),
    0 <= x + i0 -> x + i0 + Z.of_nat m <= width img ->
    0 <= y -> y + Z.of_nat n <= height img ->
    exists img',
      for_loop m i0
        (fun i im =>
           for_loop n 0 (fun j im' => setPixelAt im' (x + i) (y + j) c) im)
        img = Ok img' /\
      rectFilled c img img' (x + i0) y (Z.of_nat m) (Z.of_nat n).
Proof.
  induction m as [| m IH]; intros i0 img Hx Hw Hy Hh.
  - exists img. split; [reflexivity |].
    unfold rectFilled. repeat split; try reflexivity. intros u v Hu Hv.
    simpl in Hu. lia.
  - cbn [for_loop].
    destruct (fill_column c (x + i0) y n 0 img)
      as (img1 & Hcol & W1 & H1 & I1 & O1); try lia.
    rewrite Hcol. cbn [bind].
    destruct (IH (i0 + 1) img1) as (img' & Hloop & W & H & I & O); try lia.
    exists img'. split; [exact Hloop |].
    unfold rectFilled. split; [lia |]. split; [lia |]. split.
    + intros u v Hu Hv.
      destruct (Z.eq_dec u (x + i0)) as [-> | Hne].
      * rewrite O by lia. apply I1; lia.
      * apply I; lia.
    + intros u v Hn. rewrite O by lia. apply O1. lia.
Qed.

Lemma fits_internal k nw ne sw se el :
  isNULL nw = false -> fits k (Node nw ne sw se el) = true ->
  exists k', k = S k' /\ fits k' nw = true /\ fits k' ne = true
             /\ fits k' sw = true /\ fits k' se = true.
Proof.
  intros Nnw H. destruct k as [| k']; cbn [fits] in H; rewrite Nnw in H;
    [discriminate |]. exists k'.
  repeat (apply andb_prop in H; destruct H as [H ?]). auto.
Qed.

Lemma regionColor_leaf k el u v :
  regionColor k (Node NULL NULL NULL NULL el) u v = Some el.
Proof. destruct k; reflexivity. Qed.

Lemma fits_leaf k el : fits k (Node NULL NULL NULL NULL el) = true.
Proof. destruct k; reflexivity. Qed.

Lemma regionColor_internal k nw ne sw se el u v :
  isNULL nw = false ->
  regionColor (S k) (Node nw ne sw se el) u v
  = if u <? 2 ^ Z.of_nat k then
      if v <? 2 ^ Z.of_nat k then regionColor k nw u v
      else regionColor k sw u (v - 2 ^ Z.of_nat k)
    else
      if v <? 2 ^ Z.of_nat k then regionColor k ne (u - 2 ^ Z.of_nat k) v
      else regionColor k se (u - 2 ^ Z.of_nat k) (v - 2 ^ Z.of_nat k).
Proof. intros Nnw. cbn [regionColor]. rewrite Nnw. reflexivity. Qed.

(** [transform] on a subtree of depth at most k, for a block of side 2^k
    inside the image: it finishes, and every pixel of the block gets the
    colour of the deepest node that covers it. *)
Lemma transform_paints :
  forall node, zeroOrFour node = true -> isNULL node = false ->
  forall (k : nat) (img : PNG) (x y : Z),
    fits k node = true -> 0 <= x -> 0 <= y ->
    x + 2 ^ Z.of_nat k <= width img -> y + 2 ^ Z.of_nat k <= height img ->
    exists img',
      transform img (2 ^ Z.of_nat k) x y node = Ok img' /\
      blockPainted k node img img' x y.
Proof.
  apply (invariant_node_ind
    (fun node => forall (k : nat) (img : PNG) (x y : Z),
       fits k node = true -> 0 <= x -> 0 <= y ->
       x + 2 ^ Z.of_nat k <= width img -> y + 2 ^ Z.of_nat k <= height img ->
       exists img',
         transform img (2 ^ Z.of_nat k) x y node = Ok img' /\
         blockPainted k node img img' x y)).
  - intros el k img x y _ Hx Hy Hw Hh. cbn [transform isNULL].
    pose proof (pow2_pos k) as Hpos.
    destruct (fill_block el x y (Z.to_nat (2 ^ Z.of_nat k))
                (Z.to_nat (2 ^ Z.of_nat k)) 0 img)
      as (img' & Hloop & W & H & I & O); try (rewrite ?Z2Nat.id; lia).
    rewrite Z2Nat.id, Z.add_0_r in I, O by lia.
    exists img'. split; [exact Hloop |].
    unfold blockPainted. split; [exact W |]. split; [exact H |]. split.
    + intros u v Hu Hv. rewrite regionColor_leaf. f_equal. symmetry.
      apply I; assumption.
    + exact O.
  - intros nw ne sw se el Nnw Nne Nsw Nse Inw Ine Isw Ise
      IHnw IHne IHsw IHse k img x y Hfits Hx Hy Hw Hh.
    destruct (fits_internal _ _ _ _ _ _ Nnw Hfits)
      as (k' & -> & Fnw & Fne & Fsw & Fse).
    cbn [transform]. rewrite Nnw, pow2_succ_half.
    rewrite pow2_succ in Hw, Hh. pose proof (pow2_pos k') as Hpos.
    destruct (IHnw k' img x y) as (s1 & T1 & W1 & H1 & I1 & O1);
      try assumption; try lia.
    destruct (IHne k' s1 (x + 2 ^ Z.of_nat k') y)
      as (s2 & T2 & W2 & H2 & I2 & O2); try assumption; try lia.
    destruct (IHsw k' s2 x (y + 2 ^ Z.of_nat k'))
      as (s3 & T3 & W3 & H3 & I3 & O3); try assumption; try lia.
    destruct (IHse k' s3 (x + 2 ^ Z.of_nat k') (y + 2 ^ Z.of_nat k'))
      as (s4 & T4 & W4 & H4 & I4 & O4); try assumption; try lia.
    rewrite T1; cbn [bind]. rewrite T2; cbn [bind]. rewrite T3; cbn [bind].
    exists s4. split; [exact T4 |].
    unfold blockPainted. rewrite pow2_succ.
    split; [lia |]. split; [lia |]. split.
    + intros u v Hu Hv. rewrite regionColor_internal by assumption.
      destruct (Z.ltb_spec (u - x) (2 ^ Z.of_nat k')) as [Lu | Gu];
        destruct (Z.ltb_spec (v - y) (2 ^ Z.of_nat k')) as [Lv | Gv].
      * rewrite O4, O3, O2 by lia. apply I1; lia.
      * rewrite O4 by lia.
        replace (v - y - 2 ^ Z.of_nat k') with (v - (y + 2 ^ Z.of_nat k'))
          by lia.
        apply I3; lia.
      * rewrite O4, O3 by lia.
        replace (u - x - 2 ^ Z.of_nat k') with (u - (x + 2 ^ Z.of_nat k'))
          by lia.
        apply I2; lia.
      * replace (u - x - 2 ^ Z.of_nat k') with (u - (x + 2 ^ Z.of_nat k'))
          by lia.
        replace (v - y - 2 ^ Z.of_nat k') with (v - (y + 2 ^ Z.of_nat k'))
          by lia.
        apply I4; lia.
    + intros u v Hn. rewrite O4, O3, O2, O1 by lia. reflexivity.
Qed.

Lemma fits_S_internal k nw ne sw se el :
  isNULL nw = false ->
  fits (S k) (Node nw ne sw se el)
  = fits k nw && fits k ne && fits k sw && fits k se.
Proof. intros Nnw. cbn [fits]. rewrite Nnw. reflexivity. Qed.

Lemma buildTree_node_fits source :
  forall (fuel k : nat) (x y : Z) (node : QuadtreeNode),
    buildTree_node fuel source (2 ^ Z.of_nat k) x y = Ok node ->
    fits k node = true.
Proof.
  induction fuel as [| fuel IH]; intros k x y node Hb; [discriminate |].
  cbn [buildTree_node] in Hb. destruct k as [| k].
  - change (2 ^ Z.of_nat 0) with 1 in *. cbn [Z.eqb] in Hb. cbv iota in Hb.
    bind_inv Hb. injection Hb as <-. reflexivity.
  - rewrite pow2_succ_not_1, pow2_succ_half in Hb.
    bind_inv Hb. rename a into nw, Ha into Hnw.
    bind_inv Hb. rename a into ne, Ha into Hne.
    bind_inv Hb. rename a into sw, Ha into Hsw.
    bind_inv Hb. rename a into se, Ha into Hse.
    bind_inv Hb. injection Hb as <-.
    rewrite fits_S_internal
      by exact (proj2 (buildTree_node_invariant _ _ _ _ _ _ Hnw)).
    rewrite (IH _ _ _ _ Hnw), (IH _ _ _ _ Hne), (IH _ _ _ _ Hsw),
      (IH _ _ _ _ Hse).
    reflexivity.
Qed.

Lemma fits_collapseMarked tolerance :
  forall node, zeroOrFour node = true -> isNULL node = false ->
  forall k, fits k node = true ->
    fits k (collapseMarked (markPrunable tolerance node)) = true.
Proof.
  apply (invariant_node_ind
    (fun node => forall k, fits k node = true ->
       fits k (collapseMarked (markPrunable tolerance node)) = true)).
  - intros el k _. apply fits_leaf.
  - intros nw ne sw se el Nnw Nne Nsw Nse _ _ _ _ IHnw IHne IHsw IHse k Hfits.
    destruct (fits_internal _ _ _ _ _ _ Nnw Hfits)
      as (k' & -> & Fnw & Fne & Fsw & Fse).
    rewrite collapseMarked_internal by assumption.
    destruct (allWithin tolerance el (Node nw ne sw se el)).
    + apply fits_leaf.
    + rewrite fits_S_internal by (apply collapseMarked_not_NULL; assumption).
      rewrite IHnw, IHne, IHsw, IHse by assumption. reflexivity.
Qed.

Lemma clockwiseRotate_node_fits :
  forall node, zeroOrFour node = true -> isNULL node = false ->
  forall k node', clockwiseRotate_node node = Ok node' ->
    fits k node = true -> fits k node' = true.
Proof.
  apply (invariant_node_ind
    (fun node => forall k node', clockwiseRotate_node node = Ok node' ->
       fits k node = true -> fits k node' = true)).
  - intros el k node' H _. injection H as <-. apply fits_leaf.
  - intros nw ne sw se el Nnw Nne Nsw Nse _ _ _ _ IHnw IHne IHsw IHse
      k node' H Hfits.
    destruct (fits_internal _ _ _ _ _ _ Nnw Hfits)
      as (k' & -> & Fnw & Fne & Fsw & Fse).
    cbn [clockwiseRotate_node] in H. rewrite Nnw in H.
    bind_inv H. rename a into nw', Ha into Rsw.
    bind_inv H. rename a into sw', Ha into Rse.
    bind_inv H. rename a into se', Ha into Rne.
    bind_inv H. rename a into ne', Ha into Rnw.
    injection H as <-.
    rewrite fits_S_internal by (eapply clockwiseRotate_node_not_NULL; eassumption).
    rewrite (IHsw _ _ Rsw Fsw), (IHnw _ _ Rnw Fnw), (IHse _ _ Rse Fse),
      (IHne _ _ Rne Fne).
    reflexivity.
Qed.

(** Rotating a subtree turns the square it shows by a quarter turn
    clockwise: the point (u, v) of the rotated square shows what the point
    (v, 2^k - 1 - u) of the original showed. *)
Lemma regionColor_clockwiseRotate :
  forall node, zeroOrFour node = true -> isNULL node = false ->
  forall k node', clockwiseRotate_node node = Ok node' ->
    fits k node = true ->
    forall u v, 0 <= u < 2 ^ Z.of_nat k -> 0 <= v < 2 ^ Z.of_nat k ->
      regionColor k node' u v = regionColor k node v (2 ^ Z.of_nat k - 1 - u).
Proof.
  apply (invariant_node_ind
    (fun node => forall k node', clockwiseRotate_node node = Ok node' ->
       fits k node = true ->
       forall u v, 0 <= u < 2 ^ Z.of_nat k -> 0 <= v < 2 ^ Z.of_nat k ->
         regionColor k node' u v
         = regionColor k node v (2 ^ Z.of_nat k - 1 - u))).
  - intros el k node' H _ u v _ _. injection H as <-.
    rewrite !regionColor_leaf. reflexivity.
  - intros nw ne sw se el Nnw Nne Nsw Nse _ _ _ _ IHnw IHne IHsw IHse
      k node' H Hfits u v Hu Hv.
    destruct (fits_internal _ _ _ _ _ _ Nnw Hfits)
      as (k' & -> & Fnw & Fne & Fsw & Fse).
    cbn [clockwiseRotate_node] in H. rewrite Nnw in H.
    bind_inv H. rename a into nw', Ha into Rsw.
    bind_inv H. rename a into sw', Ha into Rse.
    bind_inv H. rename a into se', Ha into Rne.
    bind_inv H. rename a into ne', Ha into Rnw.
    injection H as <-.
    rewrite regionColor_internal
      by (eapply clockwiseRotate_node_not_NULL; eassumption).
    rewrite regionColor_internal by assumption.
    rewrite pow2_succ in Hu, Hv |- *.
    set (h := 2 ^ Z.of_nat k') in *.
    destruct (Z.ltb_spec u h) as [Lu | Gu];
      destruct (Z.ltb_spec v h) as [Lv | Gv].
    + destruct (Z.ltb_spec (2 * h - 1 - u) h); [lia |].
      subst h. rewrite (IHsw _ _ Rsw Fsw) by lia. f_equal. lia.
    + destruct (Z.ltb_spec (2 * h - 1 - u) h); [lia |].
      subst h. rewrite (IHse _ _ Rse Fse) by lia. f_equal. lia.
    + destruct (Z.ltb_spec (2 * h - 1 - u) h); [| lia].
      subst h. rewrite (IHnw _ _ Rnw Fnw) by lia. f_equal. lia.
    + destruct (Z.ltb_spec (2 * h - 1 - u) h); [| lia].
      subst h. rewrite (IHne _ _ Rne Fne) by lia. f_equal. lia.
Qed.

Lemma regionColor_In :
  forall node, zeroOrFour node = true -> isNULL node = false ->
  forall k, fits k node = true ->
  forall u v, exists c, regionColor k node u v = Some c /\ In c (leafColors node).
Proof.
  apply (invariant_node_ind
    (fun node => forall k, fits k node = true ->
       forall u v, exists c,
         regionColor k node u v = Some c /\ In c (leafColors node))).
  - intros el k _ u v. exists el. rewrite regionColor_leaf.
    split; [reflexivity | left; reflexivity].
  - intros nw ne sw se el Nnw Nne Nsw Nse _ _ _ _ IHnw IHne IHsw IHse
      k Hfits u v.
    destruct (fits_internal _ _ _ _ _ _ Nnw Hfits)
      as (k' & -> & Fnw & Fne & Fsw & Fse).
    rewrite regionColor_internal, leafColors_internal by assumption.
    destruct (u <? 2 ^ Z.of_nat k'), (v <? 2 ^ Z.of_nat k').
    + destruct (IHnw k' Fnw u v) as (c & E & Hin). exists c.
      split; [exact E |]. apply in_or_app. left. exact Hin.
    + destruct (IHsw k' Fsw u (v - 2 ^ Z.of_nat k')) as (c & E & Hin).
      exists c. split; [exact E |].
      apply in_or_app. right. apply in_or_app. right.
      apply in_or_app. left. exact Hin.
    + destruct (IHne k' Fne (u - 2 ^ Z.of_nat k') v) as (c & E & Hin).
      exists c. split; [exact E |].
      apply in_or_app. right. apply in_or_app. left. exact Hin.
    + destruct (IHse k' Fse (u - 2 ^ Z.of_nat k') (v - 2 ^ Z.of_nat k'))
        as (c & E & Hin).
      exists c. split; [exact E |].
      apply in_or_app. right. apply in_or_app. right.
      apply in_or_app. right. exact Hin.
Qed.

Lemma colorDistance_refl c : colorDistance c c = 0.
Proof. unfold colorDistance. rewrite !Z.sub_diag. reflexivity. Qed.

(** At every point the colour shown after pruning is within the tolerance
    of the colour shown before. *)
Lemma regionColor_pruned tolerance :
  0 <= tolerance ->
  forall node, zeroOrFour node = true -> isNULL node = false ->
  forall k, fits k node = true ->
  forall u v, exists c c',
    regionColor k node u v = Some c /\
    regionColor k (collapseMarked (markPrunable tolerance node)) u v = Some c' /\
    colorDistance c' c <= tolerance.
Proof.
  intros Htol.
  apply (invariant_node_ind
    (fun node => forall k, fits k node = true ->
       forall u v, exists c c',
         regionColor k node u v = Some c /\
         regionColor k (collapseMarked (markPrunable tolerance node)) u v
         = Some c' /\
         colorDistance c' c <= tolerance)).
  - intros el k _ u v. exists el, el. cbn [markPrunable collapseMarked].
    rewrite regionColor_leaf, colorDistance_refl. auto.
  - intros nw ne sw se el Nnw Nne Nsw Nse Inw Ine Isw Ise
      IHnw IHne IHsw IHse k Hfits u v.
    assert (Inode : zeroOrFour (Node nw ne sw se el) = true)
      by (apply zeroOrFour_internal; assumption).
    rewrite collapseMarked_internal by assumption.
    destruct (allWithin tolerance el (Node nw ne sw se el)) eqn:Hall.
    + destruct (regionColor_In _ Inode eq_refl k Hfits u v) as (c & E & Hin).
      exists c, el. rewrite regionColor_leaf.
      split; [exact E |]. split; [reflexivity |].
      unfold allWithin in Hall. rewrite forallb_forall in Hall.
      apply Z.leb_le. apply Hall. exact Hin.
    + destruct (fits_internal _ _ _ _ _ _ Nnw Hfits)
        as (k' & -> & Fnw & Fne & Fsw & Fse).
      rewrite (regionColor_internal k' nw) by assumption.
      rewrite regionColor_internal
        by (apply collapseMarked_not_NULL; assumption).
      destruct (u <? 2 ^ Z.of_nat k'), (v <? 2 ^ Z.of_nat k'); auto.
Qed.

(** decompress on a non-empty tree for an image of side 2^k. *)
Lemma decompress_sized (d : RGBAPixel) k this :
  sized k this ->
  exists img,
    decompress d this = Ok img /\
    width img = 2 ^ Z.of_nat k /\ height img = 2 ^ Z.of_nat k /\
    forall x y, 0 <= x < 2 ^ Z.of_nat k -> 0 <= y < 2 ^ Z.of_nat k ->
      regionColor k (root this) x y = Some (pixels img x y).
Proof.
  intros (Hres & Hnn & Hinv & Hfits). unfold decompress.
  rewrite Hnn, Hres.
  destruct (transform_paints _ Hinv Hnn k
              (PNG_new d (2 ^ Z.of_nat k) (2 ^ Z.of_nat k)) 0 0 Hfits)
    as (img & T & W & H & I & _); cbn [PNG_new width height]; try lia.
  exists img. cbn [PNG_new width height] in W, H.
  split; [exact T |]. split; [exact W |]. split; [exact H |].
  intros x y Hx Hy. specialize (I x y ltac:(lia) ltac:(lia)).
  rewrite !Z.sub_0_r in I. exact I.
Qed.

Lemma buildTree_sized fuel this0 source k this :
  buildTree fuel this0 source (2 ^ Z.of_nat k) = Ok this -> sized k this.
Proof.
  unfold buildTree. intros H. bind_inv H. injection H as <-.
  destruct (buildTree_node_invariant _ _ _ _ _ _ Ha) as [I N].
  unfold sized. cbn [root res]. repeat split; try assumption.
  eapply buildTree_node_fits; eassumption.
Qed.

Lemma prune_sized k this tolerance :
  sized k this ->
  exists this',
    prune this tolerance = Ok this' /\ sized k this' /\
    root this' = collapseMarked (markPrunable tolerance (root this)).
Proof.
  intros (Hres & Hnn & Hinv & Hfits). unfold prune. rewrite Hnn. cbn [negb].
  destruct (prune_node_two_pass tolerance _ Hinv Hnn) as [P _].
  rewrite P. cbn [bind]. eexists. split; [reflexivity |].
  destruct (prune_node_invariant tolerance _ Hinv Hnn _ P) as [I N].
  unfold sized. cbn [root res]. repeat split; try assumption.
  apply fits_collapseMarked; assumption.
Qed.

Lemma clockwiseRotate_sized k this :
  sized k this ->
  exists this',
    clockwiseRotate this = Ok this' /\ sized k this' /\
    clockwiseRotate_node (root this) = Ok (root this').
Proof.
  intros (Hres & Hnn & Hinv & Hfits). unfold clockwiseRotate.
  rewrite Hnn. cbn [negb].
  destruct (clockwiseRotate_node_total _ Hinv Hnn) as [node' R].
  rewrite R. cbn [bind]. eexists. split; [reflexivity |].
  destruct (clockwiseRotate_node_invariant _ Hinv Hnn _ R) as [I N].
  unfold sized. cbn [root res]. repeat split; try assumption.
  exact (clockwiseRotate_node_fits _ Hinv Hnn k _ R Hfits).
Qed.

(** A tree built at resolution 2^k is non-empty, satisfies the invariant,
    has resolution 2^k and no leaf deeper than k; prune and clockwiseRotate
    finish on such a tree and keep all of this. *)
Theorem size_and_depth_are_kept :
  forall (k : nat) (this : Quadtree) (tolerance : Z),
    (forall fuel this0 source,
        buildTree fuel this0 source (2 ^ Z.of_nat k) = Ok this ->
        sized k this) /\
    (sized k this ->
     (exists pruned, prune this tolerance = Ok pruned /\ sized k pruned) /\
     (exists rotated, clockwiseRotate this = Ok rotated /\ sized k rotated)).
Proof.
  intros k this tolerance. split.
  - intros fuel this0 source Hb. eapply buildTree_sized; eassumption.
  - intros Hs. split.
    + destruct (prune_sized k this tolerance Hs) as (p & P & S & _).
      exists p. auto.
    + destruct (clockwiseRotate_sized k this Hs) as (r & R & S & _).
      exists r. auto.
Qed.

Lemma tree4_sized : sized 2 tree4.
Proof. repeat split; vm_compute; reflexivity. Defined.

Lemma size_and_depth_are_kept_witness :
  buildTree 3 Quadtree_empty image4 (2 ^ Z.of_nat 2) = Ok tree4 /\
  sized 2 tree4 /\
  (exists pruned, prune tree4 30 = Ok pruned /\ sized 2 pruned) /\
  (exists rotated, clockwiseRotate tree4 = Ok rotated /\ sized 2 rotated).
Proof.
  assert (B : buildTree 3 Quadtree_empty image4 (2 ^ Z.of_nat 2) = Ok tree4)
    by (vm_compute; reflexivity).
  split; [exact B |].
  destruct (size_and_depth_are_kept 2 tree4 30) as [Hbuild Hkeep].
  split; [exact (Hbuild 3%nat Quadtree_empty image4 B) |].
  exact (Hkeep (Hbuild 3%nat Quadtree_empty image4 B)).
Defined.

(** On a non-empty tree of resolution 2^k that satisfies the invariant and
    has no leaf deeper than k (pruned or not, rotated or not), decompress
    finishes, never writes outside the grid, and returns a 2^k x 2^k grid
    in which every pixel (x, y) holds the colour of the deepest node whose
    region covers (x, y). *)
Theorem decompress_shows_deepest_nodes (d : RGBAPixel) :
  forall (k : nat) (this : Quadtree),
    sized k this ->
    exists img,
      decompress d this = Ok img /\
      width img = 2 ^ Z.of_nat k /\ height img = 2 ^ Z.of_nat k /\
      forall x y, 0 <= x < 2 ^ Z.of_nat k -> 0 <= y < 2 ^ Z.of_nat k ->
        regionColor k (root this) x y = Some (pixels img x y).
Proof. intros k this Hs. apply decompress_sized. exact Hs. Qed.

Lemma tree4_pruned_sized : sized 2 tree4_pruned.
Proof. repeat split; vm_compute; reflexivity. Defined.

Lemma decompress_shows_deepest_nodes_witness :
  sized 2 tree4_pruned /\
  exists img,
    decompress white tree4_pruned = Ok img /\
    width img = 2 ^ Z.of_nat 2 /\ height img = 2 ^ Z.of_nat 2 /\
    forall x y, 0 <= x < 2 ^ Z.of_nat 2 -> 0 <= y < 2 ^ Z.of_nat 2 ->
      regionColor 2 (root tree4_pruned) x y = Some (pixels img x y).
Proof.
  split; [exact tree4_pruned_sized |].
  apply (decompress_shows_deepest_nodes white 2 tree4_pruned).
  exact tree4_pruned_sized.
Defined.

(** clockwiseRotate turns the image by a quarter turn clockwise: on a tree
    as above, the grid decompressed after the rotation has at (x, y) the
    pixel that the grid decompressed before the rotation has at
    (y, 2^k - 1 - x). *)
Theorem clockwiseRotate_rotates_the_image (d : RGBAPixel) :
  forall (k : nat) (this : Quadtree),
    sized k this ->
    exists rotated img img',
      clockwiseRotate this = Ok rotated /\
      decompress d this = Ok img /\
      decompress d rotated = Ok img' /\
      width img' = 2 ^ Z.of_nat k /\ height img' = 2 ^ Z.of_nat k /\
      forall x y, 0 <= x < 2 ^ Z.of_nat k -> 0 <= y < 2 ^ Z.of_nat k ->
        pixels img' x y = pixels img y (2 ^ Z.of_nat k - 1 - x).
Proof.
  intros k this Hs.
  destruct (clockwiseRotate_sized k this Hs) as (rotated & R & Hs' & Rn).
  destruct (decompress_sized d k this Hs) as (img & D & _ & _ & C).
  destruct (decompress_sized d k rotated Hs') as (img' & D' & W' & H' & C').
  exists rotated, img, img'. repeat split; try assumption.
  intros x y Hx Hy. destruct Hs as (_ & Hnn & Hinv & Hfits).
  specialize (C' x y Hx Hy).
  rewrite (regionColor_clockwiseRotate _ Hinv Hnn k _ Rn Hfits x y Hx Hy) in C'.
  rewrite (C y (2 ^ Z.of_nat k - 1 - x)) in C' by lia.
  injection C' as C'. symmetry. exact C'.
Qed.

Lemma clockwiseRotate_rotates_the_image_witness :
  sized 2 tree4_pruned /\
  exists rotated img img',
    clockwiseRotate tree4_pruned = Ok rotated /\
    decompress white tree4_pruned = Ok img /\
    decompress white rotated = Ok img' /\
    width img' = 2 ^ Z.of_nat 2 /\ height img' = 2 ^ Z.of_nat 2 /\
    forall x y, 0 <= x < 2 ^ Z.of_nat 2 -> 0 <= y < 2 ^ Z.of_nat 2 ->
      pixels img' x y = pixels img y (2 ^ Z.of_nat 2 - 1 - x).
Proof.
  split; [exact tree4_pruned_sized |].
  apply (clockwiseRotate_rotates_the_image white 2 tree4_pruned).
  exact tree4_pruned_sized.
Defined.

(** Pruning is lossy only up to the tolerance: on a tree as above and for
    a tolerance >= 0, every pixel of the grid decompressed after prune is
    within colour distance [tolerance] of the pixel at the same place of
    the grid decompressed before. *)
Theorem prune_changes_pixels_within_tolerance (d : RGBAPixel) :
  forall (k : nat) (this : Quadtree) (tolerance : Z),
    sized k this -> 0 <= tolerance ->
    exists pruned img img',
      prune this tolerance = Ok pruned /\
      decompress d this = Ok img /\
      decompress d pruned = Ok img' /\
      forall x y, 0 <= x < 2 ^ Z.of_nat k -> 0 <= y < 2 ^ Z.of_nat k ->
        colorDistance (pixels img' x y) (pixels img x y) <= tolerance.
Proof.
  intros k this tolerance Hs Htol.
  destruct (prune_sized k this tolerance Hs) as (pruned & P & Hs' & Proot).
  destruct (decompress_sized d k this Hs) as (img & D & _ & _ & C).
  destruct (decompress_sized d k pruned Hs') as (img' & D' & _ & _ & C').
  exists pruned, img, img'. repeat split; try assumption.
  intros x y Hx Hy. destruct Hs as (_ & Hnn & Hinv & Hfits).
  destruct (regionColor_pruned tolerance Htol _ Hinv Hnn k Hfits x y)
    as (c & c' & E & E' & Hdist).
  specialize (C x y Hx Hy). specialize (C' x y Hx Hy).
  rewrite Proot, E' in C'. rewrite E in C.
  injection C as <-. injection C' as <-. exact Hdist.
Qed.

Lemma prune_changes_pixels_within_tolerance_witness :
  sized 2 tree4 /\ 0 <= 30 /\
  exists pruned img img',
    prune tree4 30 = Ok pruned /\
    decompress white tree4 = Ok img /\
    decompress white pruned = Ok img' /\
    forall x y, 0 <= x < 2 ^ Z.of_nat 2 -> 0 <= y < 2 ^ Z.of_nat 2 ->
      colorDistance (pixels img' x y) (pixels img x y) <= 30.
Proof.
  split; [exact tree4_sized |]. split; [lia |].
  apply (prune_changes_pixels_within_tolerance white 2 tree4 30);
    [exact tree4_sized | lia].
Defined.

(** The whole pipeline: build at resolution 2^k from a source that
    contains the block, prune with a tolerance >= 0, rotate once,
    decompress.  Every step finishes, and the pixel (x, y) of the result is
    within colour distance [tolerance] of the source pixel at
    (y, 2^k - 1 - x). *)
Theorem build_prune_rotate_decompress (d : RGBAPixel) :
  forall (k fuel : nat) (this0 : Quadtree) (source : PNG) (tolerance : Z),
    (k < fuel)%nat -> containsBlock source (2 ^ Z.of_nat k) ->
    0 <= tolerance ->
    exists built pruned rotated img,
      buildTree fuel this0 source (2 ^ Z.of_nat k) = Ok built /\
      prune built tolerance = Ok pruned /\
      clockwiseRotate pruned = Ok rotated /\
      decompress d rotated = Ok img /\
      width img = 2 ^ Z.of_nat k /\ height img = 2 ^ Z.of_nat k /\
      forall x y, 0 <= x < 2 ^ Z.of_nat k -> 0 <= y < 2 ^ Z.of_nat k ->
        colorDistance (pixels img x y)
          (pixels source y (2 ^ Z.of_nat k - 1 - x)) <= tolerance.
Proof.
  intros k fuel this0 source tolerance Hfuel [Hw Hh] Htol.
  destruct (buildTree_node_total source k fuel 0 0) as [node Hb];
    try assumption; try lia.
  assert (B : buildTree fuel this0 source (2 ^ Z.of_nat k)
              = Ok (mkQuadtree node (2 ^ Z.of_nat k)))
    by (unfold buildTree; rewrite Hb; reflexivity).
  pose proof (buildTree_sized _ _ _ _ _ B) as Hs.
  destruct (prune_sized k _ tolerance Hs) as (pruned & P & Hsp & Proot).
  destruct (clockwiseRotate_sized k pruned Hsp) as (rotated & R & Hsr & Rn).
  destruct (decompress_sized d k rotated Hsr) as (img & D & W & H & C).
  exists (mkQuadtree node (2 ^ Z.of_nat k)), pruned, rotated, img.
  repeat split; try assumption.
  intros x y Hx Hy.
  (* what the freshly built tree shows is the source *)
  destruct (decompress_sized d k _ Hs) as (img0 & D0 & _ & _ & C0).
  destruct (transform_buildTree_node source fuel k 0 0 node
              (PNG_new d (2 ^ Z.of_nat k) (2 ^ Z.of_nat k)))
    as (img1 & T1 & _ & _ & I1 & _); try assumption;
    cbn [PNG_new width height]; try lia.
  destruct Hs as (_ & Hnn & Hinv & Hfits). cbn [root] in Hnn, Hinv, Hfits, C0.
  unfold decompress in D0. cbn [root res] in D0.
  rewrite Hnn, T1 in D0. injection D0 as <-.
  destruct Hsp as (_ & Hnnp & Hinvp & Hfitsp).
  specialize (C x y Hx Hy).
  rewrite (regionColor_clockwiseRotate _ Hinvp Hnnp k _ Rn Hfitsp x y Hx Hy)
    in C.
  rewrite Proot in C. cbn [root] in C.
  destruct (regionColor_pruned tolerance Htol _ Hinv Hnn k Hfits
              y (2 ^ Z.of_nat k - 1 - x)) as (c & c' & E & E' & Hdist).
  rewrite E' in C. injection C as <-.
  rewrite (C0 y (2 ^ Z.of_nat k - 1 - x)) in E by lia.
  injection E as <-.
  rewrite I1 in Hdist by lia. exact Hdist.
Qed.

Lemma build_prune_rotate_decompress_witness :
  (2 < 3)%nat /\ containsBlock image4 (2 ^ Z.of_nat 2) /\ 0 <= 30 /\
  exists built pruned rotated img,
    buildTree 3 Quadtree_empty image4 (2 ^ Z.of_nat 2) = Ok built /\
    prune built 30 = Ok pruned /\
    clockwiseRotate pruned = Ok rotated /\
    decompress white rotated = Ok img /\
    width img = 2 ^ Z.of_nat 2 /\ height img = 2 ^ Z.of_nat 2 /\
    forall x y, 0 <= x < 2 ^ Z.of_nat 2 -> 0 <= y < 2 ^ Z.of_nat 2 ->
      colorDistance (pixels img x y)
        (pixels image4 y (2 ^ Z.of_nat 2 - 1 - x)) <= 30.
Proof.
  split; [lia |]. split; [exact image4_containsBlock |]. split; [lia |].
  apply (build_prune_rotate_decompress white 2 3 Quadtree_empty image4 30);
    [lia | exact image4_containsBlock | lia].
Defined.

(** ** Rotation and pruning together *)

(** Four rotations give back the tree itself, not only its pixels. *)
Theorem four_rotations_are_the_identity :
  forall this : Quadtree,
    invariant this -> clockwiseRotate_times 4 this = Ok this.
Proof.
  intros this Hinv.
  destruct (clockwiseRotate_total this Hinv) as (t1 & H1 & I1 & _).
  destruct (clockwiseRotate_total t1 I1) as (t2 & H2 & I2 & _).
  destruct (clockwiseRotate_total t2 I2) as (t3 & H3 & I3 & _).
  destruct (clockwiseRotate_total t3 I3) as (t4 & H4 & I4 & _).
  cbn [clockwiseRotate_times]. rewrite H1; cbn [bind]. rewrite H2; cbn [bind].
  rewrite H3; cbn [bind]. rewrite H4; cbn [bind]. f_equal.
  destruct (clockwiseRotate_root_inv _ _ H1) as [R1 [[N1 E1] | [N1 C1]]].
  - subst t1. rewrite H1 in H2. injection H2 as <-.
    rewrite H1 in H3. injection H3 as <-.
    rewrite H1 in H4. injection H4 as <-. reflexivity.
  - destruct (clockwiseRotate_root_inv _ _ H2) as [R2 [[N2 E2] | [N2 C2]]];
      [rewrite (clockwiseRotate_node_not_NULL _ _ C1) in N2; discriminate |].
    destruct (clockwiseRotate_root_inv _ _ H3) as [R3 [[N3 E3] | [N3 C3]]];
      [rewrite (clockwiseRotate_node_not_NULL _ _ C2) in N3; discriminate |].
    destruct (clockwiseRotate_root_inv _ _ H4) as [R4 [[N4 E4] | [N4 C4]]];
      [rewrite (clockwiseRotate_node_not_NULL _ _ C3) in N4; discriminate |].
    pose proof (clockwiseRotate_node_four _ _ _ _ _ C1 C2 C3 C4) as Eroot.
    destruct t4 as [r4 s4], this as [r0 s0]. cbn [root res] in *.
    congruence.
Qed.

Lemma four_rotations_are_the_identity_witness :
  invariant tree4_pruned /\ clockwiseRotate_times 4 tree4_pruned = Ok tree4_pruned.
Proof.
  assert (I : invariant tree4_pruned) by (vm_compute; reflexivity).
  split; [exact I |]. apply (four_rotations_are_the_identity tree4_pruned I).
Defined.

Lemma allWithin_internal tolerance avg nw ne sw se el :
  isNULL nw = false ->
  allWithin tolerance avg (Node nw ne sw se el)
  = allWithin tolerance avg nw && allWithin tolerance avg ne
    && allWithin tolerance avg sw && allWithin tolerance avg se.
Proof.
  intros Nnw. unfold allWithin. rewrite leafColors_internal by assumption.
  rewrite !forallb_app, !andb_assoc. reflexivity.
Qed.

(** Rotating a subtree permutes its leaves, so the prunability test gives
    the same answer before and after. *)
Lemma allWithin_clockwiseRotate tolerance avg :
  forall node, zeroOrFour node = true -> isNULL node = false ->
  forall node', clockwiseRotate_node node = Ok node' ->
    allWithin tolerance avg node' = allWithin tolerance avg node.
Proof.
  apply (invariant_node_ind
    (fun node => forall node', clockwiseRotate_node node = Ok node' ->
       allWithin tolerance avg node' = allWithin tolerance avg node)).
  - intros el node' H. injection H as <-. reflexivity.
  - intros nw ne sw se el Nnw Nne Nsw Nse _ _ _ _ IHnw IHne IHsw IHse node' H.
    cbn [clockwiseRotate_node] in H. rewrite Nnw in H.
    bind_inv H. rename a into nw', Ha into Rsw.
    bind_inv H. rename a into sw', Ha into Rse.
    bind_inv H. rename a into se', Ha into Rne.
    bind_inv H. rename a into ne', Ha into Rnw.
    injection H as <-.
    rewrite allWithin_internal
      by (eapply clockwiseRotate_node_not_NULL; eassumption).
    rewrite allWithin_internal by assumption.
    rewrite (IHsw _ Rsw), (IHnw _ Rnw), (IHse _ Rse), (IHne _ Rne).
    destruct (allWithin tolerance avg nw), (allWithin tolerance avg ne),
      (allWithin tolerance avg sw), (allWithin tolerance avg se); reflexivity.
Qed.

Lemma prune_node_clockwiseRotate tolerance :
  forall node, zeroOrFour node = true -> isNULL node = false ->
  forall node', clockwiseRotate_node node = Ok node' ->
    clockwiseRotate_node (collapseMarked (markPrunable tolerance node))
    = Ok (collapseMarked (markPrunable tolerance node')).
Proof.
  apply (invariant_node_ind
    (fun node => forall node', clockwiseRotate_node node = Ok node' ->
       clockwiseRotate_node (collapseMarked (markPrunable tolerance node))
       = Ok (collapseMarked (markPrunable tolerance node')))).
  - intros el node' H. injection H as <-. reflexivity.
  - intros nw ne sw se el Nnw Nne Nsw Nse Inw Ine Isw Ise
      IHnw IHne IHsw IHse node' H.
    assert (Inode : zeroOrFour (Node nw ne sw se el) = true)
      by (apply zeroOrFour_internal; assumption).
    pose proof (allWithin_clockwiseRotate tolerance el _ Inode eq_refl _ H)
      as Hall.
    cbn [clockwiseRotate_node] in H. rewrite Nnw in H.
    bind_inv H. rename a into nw', Ha into Rsw.
    bind_inv H. rename a into sw', Ha into Rse.
    bind_inv H. rename a into se', Ha into Rne.
    bind_inv H. rename a into ne', Ha into Rnw.
    injection H as <-.
    rewrite collapseMarked_internal by assumption.
    rewrite collapseMarked_internal
      by (eapply clockwiseRotate_node_not_NULL; eassumption).
    rewrite Hall.
    destruct (allWithin tolerance el (Node nw ne sw se el)); [reflexivity |].
    cbn [clockwiseRotate_node].
    rewrite collapseMarked_not_NULL by assumption.
    rewrite (IHsw _ Rsw), (IHse _ Rse), (IHne _ Rne), (IHnw _ Rnw).
    reflexivity.
Qed.

(** prune and clockwiseRotate commute: on a tree that satisfies the
    invariant, pruning and then rotating gives the same tree as rotating
    and then pruning with the same tolerance. *)
Theorem prune_commutes_with_clockwiseRotate :
  forall (this : Quadtree) (tolerance : Z),
    invariant this ->
    exists pruned rotated both,
      prune this tolerance = Ok pruned /\
      clockwiseRotate pruned = Ok both /\
      clockwiseRotate this = Ok rotated /\
      prune rotated tolerance = Ok both.
Proof.
  intros this tolerance Hinv.
  destruct (isNULL (root this)) eqn:E.
  - exists this, this, this. unfold prune, clockwiseRotate. rewrite E.
    repeat split.
  - destruct (clockwiseRotate_node_total _ Hinv E) as [r R].
    destruct (clockwiseRotate_node_invariant _ Hinv E _ R) as [Ir Nr].
    destruct (prune_node_two_pass tolerance _ Hinv E) as [P _].
    destruct (prune_node_two_pass tolerance _ Ir Nr) as [Pr _].
    pose proof (prune_node_clockwiseRotate tolerance _ Hinv E _ R) as C.
    exists (mkQuadtree (collapseMarked (markPrunable tolerance (root this)))
              (res this)),
      (mkQuadtree r (res this)),
      (mkQuadtree (collapseMarked (markPrunable tolerance r)) (res this)).
    unfold prune, clockwiseRotate. cbn [root res].
    rewrite E, Nr, collapseMarked_not_NULL by assumption. cbn [negb].
    rewrite P, Pr, C, R. repeat split.
Qed.

Lemma prune_commutes_with_clockwiseRotate_witness :
  invariant tree4 /\
  exists pruned rotated both,
    prune tree4 30 = Ok pruned /\
    clockwiseRotate pruned = Ok both /\
    clockwiseRotate tree4 = Ok rotated /\
    prune rotated 30 = Ok both.
Proof.
  split; [exact tree4_invariant |].
  apply (prune_commutes_with_clockwiseRotate tree4 30 tree4_invariant).
Defined.

(** ** The subtree-wide test *)

(** [isChildrenPrunable(tolerance, rootNode, node)] on a subtree that
    satisfies the invariant finishes, and answers true exactly when every
    leaf of the subtree, at whatever depth, is within colour distance
    [tolerance] of the colour of [rootNode]. *)
Theorem isChildrenPrunable_tests_every_leaf :
  forall (tolerance : Z) (rootNode node : QuadtreeNode) (avg : RGBAPixel),
    elementOf rootNode = Ok avg ->
    zeroOrFour node = true -> isNULL node = false ->
    exists answer,
      isChildrenPrunable tolerance rootNode node = Ok answer /\
      (answer = true <->
       forall c, In c (leafColors node) -> colorDistance avg c <= tolerance).
Proof.
  intros tolerance rootNode node avg Havg Hinv Hnn.
  exists (allWithin tolerance avg node).
  split; [apply isChildrenPrunable_allWithin; assumption |].
  unfold allWithin. rewrite forallb_forall. split.
  - intros H c Hin. apply Z.leb_le. apply H. exact Hin.
  - intros H c Hin. apply Z.leb_le. apply H. exact Hin.
Qed.

Lemma isChildrenPrunable_tests_every_leaf_witness :
  elementOf (root tree4) = Ok (grey 7) /\
  zeroOrFour (root tree4) = true /\ isNULL (root tree4) = false /\
  exists answer,
    isChildrenPrunable 30 (root tree4) (root tree4) = Ok answer /\
    (answer = true <->
     forall c, In c (leafColors (root tree4)) -> colorDistance (grey 7) c <= 30).
Proof.
  assert (E : elementOf (root tree4) = Ok (grey 7)) by (vm_compute; reflexivity).
  split; [exact E |]. split; [exact tree4_invariant |]. split; [reflexivity |].
  apply (isChildrenPrunable_tests_every_leaf 30 (root tree4) (root tree4)
           (grey 7) E tree4_invariant eq_refl).
Defined.
